(** * Meeting scheduler (meeting_scheduler_ortools.py): a shallow embedding

    The script discretises one UTC day into 30-minute slots, turns every
    participant's local working window into a per-slot availability
    vector, enumerates the feasible start slots of every meeting, builds a
    CP-SAT model (one Boolean per feasible start, exactly-one and
    no-double-booking constraints, a linear discomfort objective), calls
    the solver and decodes the answer into rows.

    Conventions of the embedding.
    - Python ints are [Z]; [//] and [%] are [Z.div] and [Z.modulo] (both
      floor, the remainder takes the sign of the divisor).
    - [math.floor(a / b)] and [math.ceil(a / b)] on ints are the exact
      floor and ceiling of the quotient ([floor_div], [ceil_div]); the
      float quotient the script takes first does not change them for
      arguments below 2^50 in magnitude, far beyond any count of minutes.
    - UTC offsets are whole hours, as in the script's tables, so that
      [int(round(utc_offset_hours * 60))] is [utc_offset_hours * 60] and
      the local hour [hour + minute/60.0] is a multiple of a quarter of an
      hour, which binary floating point represents exactly; it is modelled
      as a rational number.
    - dicts are [gmap]s; [d[k]] on a missing key raises [KeyError], which
      is [None] in the option monad.
    - the CP-SAT solver is a parameter: a function from the model to a
      status and a value for every variable. *)

From Stdlib Require Import ZArith QArith Qround Lia.
From stdpp Require Import base option list gmap strings.

Local Open Scope Z_scope.

(** ** Python primitives *)

(** [range(a, b)] *)
Definition range (a b : Z) : list Z := seqZ a (b - a).

(** [math.floor(a / b)] for ints [a], [b] with [0 < b] *)
Definition floor_div (a b : Z) : Z := a / b.

(** [math.ceil(a / b)] for ints [a], [b] with [0 < b] *)
Definition ceil_div (a b : Z) : Z := - ((- a) / b).

(** [l[i]]: a negative index counts from the end, an index out of range
    raises [IndexError]. *)
Definition py_index {A} (l : list A) (i : Z) : option A :=
  if bool_decide (0 <= i) then l !! Z.to_nat i
  else if bool_decide (- Z.of_nat (length l) <= i)
       then l !! Z.to_nat (Z.of_nat (length l) + i)
       else None.

(** ** Input tables *)

(** [datetime.time(hour, minute)] *)
Record time := Time { hour : Z; minute : Z }.

(** [(name, utc_offset_hours, preferred_start_local, preferred_end_local)] *)
Record participant := Participant {
  p_name : string;
  p_utc_off : Z;
  p_start_local : time;
  p_end_local : time
}.

(** [(meeting_id, team_name, duration_minutes, required_participant_names)] *)
Record meeting := Meeting {
  m_mid : string;
  m_team : string;
  m_dur_min : Z;
  m_required : list string
}.

(** ** Configuration *)

Definition SLOT_MIN : Z := 30.
Definition SLOTS_PER_DAY : Z := 24 * 60 / SLOT_MIN.
Definition HORIZON_SLOTS : Z := SLOTS_PER_DAY.

(** A [datetime] is counted in minutes from [EPOCH_DATE], which is midnight
    of the anchor day; [timedelta(minutes=k)] is [k]. *)
Definition EPOCH_DATE : Z := 0.

(** The helper of the script; [epoch_date] is not used by its body. *)
Definition time_to_slot_index (dt_time : time) (epoch_date : Z)
    (slot_length_min : Z) : Z :=
  let minutes := hour dt_time * 60 + minute dt_time in
  minutes / slot_length_min.

(** The example tables of the script. *)
Definition participants : list participant :=
  [ Participant "Alice" (-2) (Time 9 0) (Time 17 0);
    Participant "Bob" 1 (Time 9 0) (Time 17 0);
    Participant "Cara" 2 (Time 10 0) (Time 18 0);
    Participant "Dan" (-2) (Time 8 30) (Time 16 30);
    Participant "Eve" 0 (Time 9 0) (Time 17 0) ].

Definition meetings : list meeting :=
  [ Meeting "Mktg.Sync" "Marketing" 60 ["Alice"; "Bob"; "Eve"];
    Meeting "Eng.AllHands" "Engineering" 30 ["Bob"; "Cara"; "Dan"];
    Meeting "Prod.Planning" "Product" 60 ["Alice"; "Cara"; "Eve"] ].

(** ** Availability *)

(** First and one-past-last UTC slot of a local window, before the loop
    over the horizon looks at them. *)
Definition window_start_slot (utc_offset_hours : Z) (start_local : time) : Z :=
  let offset_minutes := utc_offset_hours * 60 in
  let start_minutes_local := hour start_local * 60 + minute start_local in
  let start_utc_minutes := start_minutes_local - offset_minutes in
  floor_div start_utc_minutes SLOT_MIN.

Definition window_end_slot (utc_offset_hours : Z) (end_local : time) : Z :=
  let offset_minutes := utc_offset_hours * 60 in
  let end_minutes_local := hour end_local * 60 + minute end_local in
  let end_utc_minutes := end_minutes_local - offset_minutes in
  ceil_div end_utc_minutes SLOT_MIN.

(** One turn of [for s in range(HORIZON_SLOTS)]: [avail[s] = True] when
    [s >= start_slot and s < end_slot]. *)
Definition mark_slot (start_slot end_slot : Z) (avail : list bool) (s : Z)
  : list bool :=
  if bool_decide (s >= start_slot) && bool_decide (s < end_slot)
  then <[Z.to_nat s := true]> avail
  else avail.

Definition local_window_to_utc_slots
    (utc_offset_hours : Z) (start_local end_local : time) : list bool :=
  let start_slot := window_start_slot utc_offset_hours start_local in
  let end_slot := window_end_slot utc_offset_hours end_local in
  let avail := replicate (Z.to_nat HORIZON_SLOTS) false in
  foldl (mark_slot start_slot end_slot) avail (range 0 HORIZON_SLOTS).

(** [participant_avail]: the dict filled by the loop over [participants];
    a later entry with the same name overwrites an earlier one. *)
Definition build_participant_avail (ps : list participant)
  : gmap string (list bool) :=
  foldl (fun d p =>
           <[p_name p :=
               local_window_to_utc_slots (p_utc_off p) (p_start_local p)
                 (p_end_local p)]> d)
        ∅ ps.

(** [participant_utc_offsets = {name: utc for name,utc,_,_ in participants}] *)
Definition build_participant_utc_offsets (ps : list participant)
  : gmap string Z :=
  foldl (fun d p => <[p_name p := p_utc_off p]> d) ∅ ps.

(** ** Local hour of a slot *)

Definition slot_local_minutes (slot_index utc_offset_hours : Z) : Z :=
  let minutes_utc := slot_index * SLOT_MIN + SLOT_MIN / 2 in
  let minutes_local := minutes_utc + utc_offset_hours * 60 in
  minutes_local mod (24 * 60).

Definition slot_to_local_hour (slot_index utc_offset_hours : Z) : Q :=
  let minutes_local := slot_local_minutes slot_index utc_offset_hours in
  let hour := minutes_local / 60 in
  let minute := minutes_local mod 60 in
  (inject_Z hour + inject_Z minute / inject_Z 60)%Q.

(** ** Candidate start slots *)

(** [for t in range(s, s+dur_slots): if not participant_avail[p][t]: ok =
    False; break], the result being the value of [ok] after the loop. *)
Fixpoint slots_free (participant_avail : gmap string (list bool))
    (p : string) (ts : list Z) : option bool :=
  match ts with
  | [] => Some true
  | t :: ts' =>
      avail ← participant_avail !! p;
      b ← py_index avail t;
      if b : bool then slots_free participant_avail p ts' else Some false
  end.

(** [for p in required: ...; if not ok: break] *)
Fixpoint required_free (participant_avail : gmap string (list bool))
    (required : list string) (s dur_slots : Z) : option bool :=
  match required with
  | [] => Some true
  | p :: ps =>
      ok ← slots_free participant_avail p (range s (s + dur_slots));
      if ok : bool then required_free participant_avail ps s dur_slots
      else Some false
  end.

(** [for s in range(HORIZON_SLOTS - dur_slots + 1): ...; if ok:
    candidates.append(s)] *)
Fixpoint scan_starts (participant_avail : gmap string (list bool))
    (required : list string) (dur_slots : Z) (starts : list Z)
    (candidates : list Z) : option (list Z) :=
  match starts with
  | [] => Some candidates
  | s :: starts' =>
      ok ← required_free participant_avail required s dur_slots;
      scan_starts participant_avail required dur_slots starts'
        (if ok : bool then candidates ++ [s] else candidates)
  end.

Definition duration_slots (dur_min : Z) : Z := ceil_div dur_min SLOT_MIN.

Definition candidates_of (participant_avail : gmap string (list bool))
    (m : meeting) : option (list Z) :=
  let dur_slots := duration_slots (m_dur_min m) in
  scan_starts participant_avail (m_required m) dur_slots
    (range 0 (HORIZON_SLOTS - dur_slots + 1)) [].

(** The two dicts filled by the loop over [meetings]. *)
Record candidate_tables := CandidateTables {
  meeting_candidates : gmap string (list Z);
  meeting_duration_slots : gmap string Z
}.

Fixpoint build_candidates (participant_avail : gmap string (list bool))
    (ms : list meeting) (tb : candidate_tables) : option candidate_tables :=
  match ms with
  | [] => Some tb
  | m :: ms' =>
      let dur_slots := duration_slots (m_dur_min m) in
      let durs := <[m_mid m := dur_slots]> (meeting_duration_slots tb) in
      candidates ← candidates_of participant_avail m;
      build_candidates participant_avail ms'
        (CandidateTables (<[m_mid m := candidates]> (meeting_candidates tb))
           durs)
  end.

(** ** The CP-SAT model *)

(** A Boolean variable is its index in creation order ([NewBoolVar]); its
    display name plays no role. *)
Inductive constraint :=
| BoolOr (lits : list nat)          (** [AddBoolOr(lits)] *)
| SumEq (vars : list nat) (k : Z)   (** [Add(sum(vars) == k)] *)
| SumLe (vars : list nat) (k : Z).  (** [Add(sum(vars) <= k)] *)

Record CpModel := MkModel {
  num_vars : nat;
  constraints : list constraint;
  objective : list (nat * Z)        (** [Minimize(sum(var * cost))] *)
}.

Definition sum_vars (value : nat -> bool) (vars : list nat) : Z :=
  foldr (fun v acc => Z.b2z (value v) + acc) 0 vars.

Definition constraint_holds (value : nat -> bool) (c : constraint) : bool :=
  match c with
  | BoolOr lits => existsb value lits
  | SumEq vars k => sum_vars value vars =? k
  | SumLe vars k => sum_vars value vars <=? k
  end.

Definition model_sat (value : nat -> bool) (m : CpModel) : Prop :=
  Forall (fun c => constraint_holds value c = true) (constraints m).

Definition infeasible (m : CpModel) : Prop := forall value, ~ model_sat value m.

(** ** Decision variables *)

(** [for s in meeting_candidates[mid]: start_vars[(mid,s)] =
    model.NewBoolVar(...)], threading the number of variables created so
    far and the dict. *)
Definition new_start_vars (mid : string) (cands : list Z)
    (st : nat * gmap (string * Z) nat) : nat * gmap (string * Z) nat :=
  foldl (fun st s => (S (fst st), <[(mid, s) := fst st]> (snd st))) st cands.

Fixpoint build_start_vars (tb : candidate_tables) (ms : list meeting)
    (st : nat * gmap (string * Z) nat)
  : option (nat * gmap (string * Z) nat) :=
  match ms with
  | [] => Some st
  | m :: ms' =>
      cands ← meeting_candidates tb !! m_mid m;
      build_start_vars tb ms' (new_start_vars (m_mid m) cands st)
  end.

(** ** Each meeting scheduled exactly once *)

Definition exactly_one_constraint (tb : candidate_tables)
    (start_vars : gmap (string * Z) nat) (m : meeting) : option constraint :=
  cands ← meeting_candidates tb !! m_mid m;
  vars_for_mid ← mapM (fun s => start_vars !! (m_mid m, s)) cands;
  Some (match vars_for_mid with
        | [] => BoolOr []
        | _ => SumEq vars_for_mid 1
        end).

(** ** No double-booking *)

(** The variables one meeting contributes to [occupying] for the pair
    [(p_name, t)]. *)
Definition occupying_of_meeting (tb : candidate_tables)
    (start_vars : gmap (string * Z) nat) (p_name : string) (t : Z)
    (m : meeting) : option (list nat) :=
  if bool_decide (p_name ∈ m_required m) then
    dur ← meeting_duration_slots tb !! m_mid m;
    cands ← meeting_candidates tb !! m_mid m;
    mapM (fun s => start_vars !! (m_mid m, s))
         (filter (fun s => s <= t < s + dur) cands)
  else Some [].

Definition occupying (tb : candidate_tables)
    (start_vars : gmap (string * Z) nat) (ms : list meeting)
    (p_name : string) (t : Z) : option (list nat) :=
  @concat _ <$> mapM (occupying_of_meeting tb start_vars p_name t) ms.

(** [if occupying: model.Add(sum(occupying) <= 1)] *)
Definition double_booking_constraint (tb : candidate_tables)
    (start_vars : gmap (string * Z) nat) (ms : list meeting)
    (p_name : string) (t : Z) : option (list constraint) :=
  occ ← occupying tb start_vars ms p_name t;
  Some (match occ with [] => [] | _ => [SumLe occ 1] end).

Definition no_double_booking (tb : candidate_tables)
    (start_vars : gmap (string * Z) nat) (ps : list participant)
    (ms : list meeting) : option (list constraint) :=
  @concat _ <$>
    mapM (fun p =>
            @concat _ <$>
              mapM (double_booking_constraint tb start_vars ms (p_name p))
                   (range 0 HORIZON_SLOTS))
         ps.

(** ** Discomfort cost *)

Definition Qlt_bool (x y : Q) : bool := negb (Qle_bool y x).

(** The body of [slot_discomfort_for_participant] once [local_hour] is
    known. *)
Definition discomfort_of_local_hour (local_hour : Q) : Z :=
  if Qle_bool (inject_Z 9) local_hour && Qlt_bool local_hour (inject_Z 17)
  then 0
  else
    let dist :=
      if Qlt_bool local_hour (inject_Z 9)
      then (inject_Z 9 - local_hour)%Q
      else (local_hour - inject_Z 17)%Q in
    Qceiling (dist * inject_Z 10).

Definition slot_discomfort_for_participant
    (participant_utc_offsets : gmap string Z) (slot : Z)
    (participant_name : string) : option Z :=
  utc_off ← participant_utc_offsets !! participant_name;
  let local_hour := slot_to_local_hour slot utc_off in
  Some (discomfort_of_local_hour local_hour).

(** [for p in required: cost += slot_discomfort_for_participant(t, p)] *)
Fixpoint add_required_cost (participant_utc_offsets : gmap string Z) (t : Z)
    (required : list string) (cost : Z) : option Z :=
  match required with
  | [] => Some cost
  | p :: ps =>
      d ← slot_discomfort_for_participant participant_utc_offsets t p;
      add_required_cost participant_utc_offsets t ps (cost + d)
  end.

(** [for t in range(s, s+dur): ...] *)
Fixpoint add_slots_cost (participant_utc_offsets : gmap string Z)
    (required : list string) (ts : list Z) (cost : Z) : option Z :=
  match ts with
  | [] => Some cost
  | t :: ts' =>
      c ← add_required_cost participant_utc_offsets t required cost;
      add_slots_cost participant_utc_offsets required ts' c
  end.

Definition candidate_cost (participant_utc_offsets : gmap string Z)
    (required : list string) (s dur : Z) : option Z :=
  add_slots_cost participant_utc_offsets required (range s (s + dur)) 0.

(** [for s in meeting_candidates[mid]: ...; start_cost[(mid,s)] = cost] *)
Fixpoint add_start_costs (participant_utc_offsets : gmap string Z)
    (m : meeting) (dur : Z) (cands : list Z)
    (start_cost : gmap (string * Z) Z) : option (gmap (string * Z) Z) :=
  match cands with
  | [] => Some start_cost
  | s :: cands' =>
      cost ← candidate_cost participant_utc_offsets (m_required m) s dur;
      add_start_costs participant_utc_offsets m dur cands'
        (<[(m_mid m, s) := cost]> start_cost)
  end.

Fixpoint build_start_cost (participant_utc_offsets : gmap string Z)
    (tb : candidate_tables) (ms : list meeting)
    (start_cost : gmap (string * Z) Z) : option (gmap (string * Z) Z) :=
  match ms with
  | [] => Some start_cost
  | m :: ms' =>
      dur ← meeting_duration_slots tb !! m_mid m;
      cands ← meeting_candidates tb !! m_mid m;
      sc ← add_start_costs participant_utc_offsets m dur cands start_cost;
      build_start_cost participant_utc_offsets tb ms' sc
  end.

(** [objective_terms]: one term [var * cost] for every entry of
    [start_vars] with a non-zero cost.  The sum does not depend on the order
    in which the dict is traversed. *)
Definition objective_terms (start_vars : gmap (string * Z) nat)
    (start_cost : gmap (string * Z) Z) : list (nat * Z) :=
  omap (fun kv : (string * Z) * nat =>
          let cost := default 0 (start_cost !! fst kv) in
          if bool_decide (cost <> 0) then Some (snd kv, cost) else None)
       (map_to_list start_vars).

(** ** The encoder: everything up to the call of the solver *)

Record encoding := Encoding {
  participant_avail : gmap string (list bool);
  participant_utc_offsets : gmap string Z;
  tables : candidate_tables;
  start_vars : gmap (string * Z) nat;
  exactly_one : list constraint;
  double_booking : list constraint;
  start_cost : gmap (string * Z) Z;
  model : CpModel
}.

Definition encode (ps : list participant) (ms : list meeting)
  : option encoding :=
  let pa := build_participant_avail ps in
  let offs := build_participant_utc_offsets ps in
  tb ← build_candidates pa ms (CandidateTables ∅ ∅);
  st ← build_start_vars tb ms (0%nat, ∅);
  c1 ← mapM (exactly_one_constraint tb (snd st)) ms;
  c2 ← no_double_booking tb (snd st) ps ms;
  sc ← build_start_cost offs tb ms ∅;
  Some (Encoding pa offs tb (snd st) c1 c2 sc
          (MkModel (fst st) (c1 ++ c2) (objective_terms (snd st) sc))).

(** ** The solver and the decoder *)

(** The statuses of [cp_model]. *)
Inductive CpSolverStatus :=
| UNKNOWN | MODEL_INVALID | FEASIBLE | INFEASIBLE | OPTIMAL.

Global Instance CpSolverStatus_eq_dec : EqDecision CpSolverStatus.
Proof. solve_decision. Defined.

(** What [solver.Solve(model)] leaves behind: the status and, through
    [solver.Value], a value for every Boolean variable. *)
Definition solver_t : Type := CpModel -> CpSolverStatus * (nat -> bool).

(** [dt.time()] *)
Definition time_of (dt : Z) : time :=
  let m := dt mod (24 * 60) in Time (m / 60) (m mod 60).

Definition digit (n : Z) : Ascii.ascii := Ascii.ascii_of_nat (48 + Z.to_nat n).

Definition two_digits (n : Z) : string :=
  String (digit (n / 10)) (String (digit (n mod 10)) EmptyString).

(** [t.strftime("%H:%M")] *)
Definition strftime_HM (t : time) : string :=
  two_digits (hour t) +:+ ":" +:+ two_digits (minute t).

(** [for s in meeting_candidates[mid]: if solver.Value(start_vars[(mid,s)])
    == 1: chosen = s; break] *)
Fixpoint find_chosen (value : nat -> bool)
    (start_vars : gmap (string * Z) nat) (mid : string) (cands : list Z)
  : option (option Z) :=
  match cands with
  | [] => Some None
  | s :: cands' =>
      v ← start_vars !! (mid, s);
      if bool_decide (Z.b2z (value v) = 1) then Some (Some s)
      else find_chosen value start_vars mid cands'
  end.

(** One entry of [local_times]: the participant and, when the meeting has a
    start, the local start and end clock times and the offset that the
    script prints after them; [None] stands for ["n/a"]. *)
Definition local_time_entry : Type := string * option (string * string * Z).

Record row := Row {
  Meeting_ : string;
  Team : string;
  StartUTC : option string;
  EndUTC : option string;
  LocalTimes : list local_time_entry;
  Attendees : list string;
  Penalty : option Z
}.

Definition local_time_of (participant_utc_offsets : gmap string Z)
    (bounds : option (Z * Z)) (p : string) : option local_time_entry :=
  match bounds with
  | Some (start_utc, end_utc) =>
      off ← participant_utc_offsets !! p;
      let start_local := start_utc + off * 60 in
      let end_local := end_utc + off * 60 in
      Some (p, Some (strftime_HM (time_of start_local),
                     strftime_HM (time_of end_local), off))
  | None => Some (p, None)
  end.

Definition decode_meeting (e : encoding) (value : nat -> bool) (m : meeting)
  : option row :=
  cands ← meeting_candidates (tables e) !! m_mid m;
  chosen ← find_chosen value (start_vars e) (m_mid m) cands;
  bounds ← match chosen with
           | Some s =>
               let start_utc := EPOCH_DATE + s * SLOT_MIN in
               dur ← meeting_duration_slots (tables e) !! m_mid m;
               Some (Some (start_utc, start_utc + dur * SLOT_MIN))
           | None => Some None
           end;
  local_times ← mapM (local_time_of (participant_utc_offsets e) bounds)
                     (m_required m);
  penalty ← match chosen with
            | Some s => Some <$> start_cost e !! (m_mid m, s)
            | None => Some None
            end;
  Some (Row (m_mid m) (m_team m)
          ((fun b => strftime_HM (time_of (fst b))) <$> bounds)
          ((fun b => strftime_HM (time_of (snd b))) <$> bounds)
          local_times (m_required m) penalty).

(** The observable result of a run: the line printed on failure (its fixed
    text and the status printed after it) and the rows of the table. *)
Record output := Output {
  printed : option (string * CpSolverStatus);
  rows : list row
}.

Definition report (e : encoding) (ms : list meeting)
    (status : CpSolverStatus) (value : nat -> bool) : option output :=
  if bool_decide (status = OPTIMAL \/ status = FEASIBLE) then
    rs ← mapM (decode_meeting e value) ms;
    Some (Output None rs)
  else
    Some (Output (Some ("No feasible solution found. Solver status:", status))
            []).

Definition run (solver : solver_t) (ps : list participant)
    (ms : list meeting) : option output :=
  e ← encode ps ms;
  let r := solver (model e) in
  report e ms (fst r) (snd r).

(** ** Readings of the specification *)

(** Minutes after local midnight of a clock time. *)
Definition local_minutes_of (t : time) : Z := hour t * 60 + minute t.

(** The wrap-around reading of availability: the UTC start of slot [s],
    converted to local time and reduced modulo the day, lies in
    [[start_local, end_local)]. *)
Definition in_window_mod_day (off : Z) (st en : time) (s : Z) : bool :=
  let local := (s * SLOT_MIN + off * 60) mod (24 * 60) in
  bool_decide (local_minutes_of st <= local < local_minutes_of en).

Definition availability_wraps (off : Z) (st en : time) : Prop :=
  let avail := local_window_to_utc_slots off st en in
  length avail = Z.to_nat HORIZON_SLOTS /\
  forall s : nat,
    Z.of_nat s < HORIZON_SLOTS ->
    (avail !! s = Some true <-> in_window_mod_day off st en (Z.of_nat s) = true).

(** The slot [t] is free for [p]: [participant_avail[p][t]] is [True]. *)
Definition free_at (pa : gmap string (list bool)) (p : string) (t : Z)
  : Prop :=
  exists avail, pa !! p = Some avail /\ py_index avail t = Some true.

(** Every required participant is a key of [participant_avail], and the
    vectors cover the horizon. *)
Definition avail_covers (pa : gmap string (list bool))
    (required : list string) : Prop :=
  forall p, p ∈ required ->
    exists avail, pa !! p = Some avail /\
                  length avail = Z.to_nat HORIZON_SLOTS.

(** Every meeting names known participants only. *)
Definition well_formed (ps : list participant) (ms : list meeting) : Prop :=
  forall m, m ∈ ms -> forall p, p ∈ m_required m -> p ∈ p_name <$> ps.

(** Sum of [f] over a list. *)
Definition sumZ {A} (f : A -> Z) (l : list A) : Z :=
  foldr (fun x acc => f x + acc) 0 l.

(** The variable with key [(mid, s)] covers the pair [(p, t)]: a meeting
    called [mid] requires [p], and [t] lies in the slots the meeting
    occupies when it starts at [s]. *)
Definition covers (ms : list meeting) (tb : candidate_tables)
    (key : string * Z) (p : string) (t : Z) : Prop :=
  exists m dur,
    m ∈ ms /\ m_mid m = fst key /\ p ∈ m_required m /\
    meeting_duration_slots tb !! fst key = Some dur /\
    snd key <= t < snd key + dur.

(** The variables created so far are numbered below the counter, and
    distinct keys of [start_vars] hold distinct variables. *)
Definition vars_ok (st : nat * gmap (string * Z) nat) : Prop :=
  (forall k v, snd st !! k = Some v -> (v < fst st)%nat) /\
  (forall k1 k2 v, snd st !! k1 = Some v -> snd st !! k2 = Some v -> k1 = k2).

(** Every lookup the encoder makes after candidate generation finds its
    key: each meeting has a duration and a candidate list, and each
    candidate has a variable. *)
Definition keys_ready (tb : candidate_tables)
    (sv : gmap (string * Z) nat) (ms : list meeting) : Prop :=
  forall m, m ∈ ms ->
    is_Some (meeting_duration_slots tb !! m_mid m) /\
    exists cands,
      meeting_candidates tb !! m_mid m = Some cands /\
      forall s, s ∈ cands -> is_Some (sv !! (m_mid m, s)).

(** The penalty of one (slot, participant) pair, [0] for a name that is not
    a key of [participant_utc_offsets]. *)
Definition penalty (offs : gmap string Z) (t : Z) (p : string) : Z :=
  match offs !! p with
  | Some off => discomfort_of_local_hour (slot_to_local_hour t off)
  | None => 0
  end.

(** The cost of a start: the penalties of all the (slot, participant) pairs
    the meeting occupies. *)
Definition occupied_penalty (offs : gmap string Z) (required : list string)
    (s dur : Z) : Z :=
  sumZ (fun t => sumZ (penalty offs t) required) (range s (s + dur)).

(** A participant at UTC+14 with the window 9-17, a meeting that fits the
    three hours of the horizon in which this participant is available, and
    one that is too long for them. *)
Definition far_east : list participant :=
  [ Participant "Zed" 14 (Time 9 0) (Time 17 0) ].

Definition short_call : meeting := Meeting "Call" "Ops" 30 ["Zed"].
Definition long_review : meeting := Meeting "Review" "Ops" 240 ["Zed"].

(** A solver that only reports success with an assignment satisfying the
    model. *)
Definition solver_sound (solver : solver_t) : Prop :=
  forall m,
    fst (solver m) = OPTIMAL \/ fst (solver m) = FEASIBLE ->
    model_sat (snd (solver m)) m.

(** What a run reports apart from the raw status value of the solver: the
    text of the failure line, if any, and the table. *)
Definition outcome_kind (o : output) : option string * list row :=
  (fst <$> printed o, rows o).

(** The reading of the specification: a run in which the solver answers
    [UNKNOWN] and one in which it answers [INFEASIBLE] report different
    outcomes. *)
Definition timeout_reported_distinctly (ps : list participant)
    (ms : list meeting) : Prop :=
  forall (solver1 solver2 : solver_t) e o1 o2,
    encode ps ms = Some e ->
    fst (solver1 (model e)) = UNKNOWN ->
    fst (solver2 (model e)) = INFEASIBLE ->
    run solver1 ps ms = Some o1 -> run solver2 ps ms = Some o2 ->
    outcome_kind o1 <> outcome_kind o2.

(** Solvers that answer with a fixed status and set no variable. *)
Definition constant_solver (status : CpSolverStatus) : solver_t :=
  fun _ => (status, fun _ => false).

(** The failure line of the script. *)
Definition no_solution_line (status : CpSolverStatus)
  : string * CpSolverStatus :=
  ("No feasible solution found. Solver status:", status).

(** An answer to the model of the example tables: "Mktg.Sync" at slot 22,
    "Eng.AllHands" at slot 26 and "Prod.Planning" at slot 24. *)
Definition example_solver : solver_t :=
  fun _ => (OPTIMAL, fun v => bool_decide (v ∈ [0; 14; 22]%nat)).

(** The reading of the specification for the far-east participant: the
    availability vector is false on the whole horizon and a meeting that
    requires this participant has no candidate start. *)
Definition offset_14_unschedulable (m : meeting) : Prop :=
  (forall s : nat,
     local_window_to_utc_slots 14 (Time 9 0) (Time 17 0) !! s <> Some true) /\
  exists e,
    encode far_east [m] = Some e /\
    meeting_candidates (tables e) !! m_mid m = Some [].

(** Three participants with the window 9-17 at UTC+0 and one meeting of 30
    minutes that needs all three. *)
Definition office_hours (n : string) : participant :=
  Participant n 0 (Time 9 0) (Time 17 0).

(** The availability vector of such a participant. *)
Definition office_avail : list bool :=
  local_window_to_utc_slots 0 (Time 9 0) (Time 17 0).

Definition trio (n1 n2 n3 : string) : list participant :=
  [office_hours n1; office_hours n2; office_hours n3].

Definition standup (mid team n1 n2 n3 : string) : meeting :=
  Meeting mid team 30 [n1; n2; n3].

(** ** Auxiliary notions for the further properties *)

(** A [time] object has [0 <= hour < 24] and [0 <= minute < 60]. *)
Definition valid_time (t : time) : Prop :=
  0 <= hour t < 24 /\ 0 <= minute t < 60.

(** The availability vector of a row of the participant table. *)
Definition avail_of (q : participant) : list bool :=
  local_window_to_utc_slots (p_utc_off q) (p_start_local q) (p_end_local q).

(** The last row of the participant table with a given name. *)
Definition last_named (n : string) (ps : list participant)
  : option participant :=
  last (filter (fun q => p_name q = n) ps).


(** A list of slots in strictly increasing order. *)
Definition increasing (l : list Z) : Prop :=
  forall (i j : nat) a b,
    (i < j)%nat -> l !! i = Some a -> l !! j = Some b -> a < b.

(** The variables a constraint mentions. *)
Definition constraint_vars (c : constraint) : list nat :=
  match c with
  | BoolOr lits => lits
  | SumEq vars _ => vars
  | SumLe vars _ => vars
  end.

(** A meeting that needs a participant who is in no row of the table, and
    one that lasts more than a day. *)
Definition ghost_call : meeting := Meeting "Seance" "Ops" 30 ["Ghost"; "Zed"].
Definition marathon : meeting := Meeting "Marathon" "Ops" 1500 ["Zed"].

(** The assignment that sets, for every meeting of the table, the variable
    of the start that [sel] gives for the meeting's id, and no other
    variable. *)
Definition schedule_assignment (start_vars : gmap (string * Z) nat)
    (ms : list meeting) (sel : string -> Z) : nat -> bool :=
  fun v =>
    bool_decide
      (v ∈ omap (fun m => start_vars !! (m_mid m, sel (m_mid m))) ms).

(** The starts of [example_solver], by meeting id. *)
Definition example_schedule (mid : string) : Z :=
  if bool_decide (mid = "Mktg.Sync") then 22
  else if bool_decide (mid = "Eng.AllHands") then 26
  else 24.

(** * Properties *)

(** ** Arithmetic of floor and ceiling *)

Lemma floor_div_le (a b s : Z) : 0 < b -> (floor_div a b <= s <-> a < b * (s + 1)).
Proof.
  intros Hb. unfold floor_div.
  pose proof (Z.div_mod a b ltac:(lia)) as Hdm.
  pose proof (Z.mod_pos_bound a b Hb) as Hm.
  split; intros H; nia.
Qed.

Lemma lt_ceil_div (a b s : Z) : 0 < b -> (s < ceil_div a b <-> b * s < a).
Proof.
  intros Hb. unfold ceil_div.
  pose proof (Z.div_mod (- a) b ltac:(lia)) as Hdm.
  pose proof (Z.mod_pos_bound (- a) b Hb) as Hm.
  split; intros H; nia.
Qed.

Lemma ceil_div_spec (a b : Z) :
  0 < b -> b * (ceil_div a b - 1) < a <= b * ceil_div a b.
Proof.
  intros Hb. unfold ceil_div.
  pose proof (Z.div_mod (- a) b ltac:(lia)) as Hdm.
  pose proof (Z.mod_pos_bound (- a) b Hb) as Hm.
  nia.
Qed.


Lemma elem_of_range (a b x : Z) : x ∈ range a b <-> a <= x < b.
Proof. unfold range. rewrite elem_of_seqZ. lia. Qed.

Lemma range_nil (a b : Z) : b <= a -> range a b = [].
Proof.
  intros H. unfold range, seqZ.
  replace (Z.to_nat (b - a)) with 0%nat by lia. done.
Qed.

Lemma range_cons (a b : Z) : a < b -> range a b = a :: range (a + 1) b.
Proof.
  intros H. unfold range.
  rewrite (seqZ_cons a (b - a)) by lia.
  f_equal. f_equal; lia.
Qed.

Lemma HORIZON_SLOTS_eq : HORIZON_SLOTS = 48.
Proof. reflexivity. Qed.

(** ** The availability vector *)

Section Availability.
Variables start_slot end_slot : Z.

Lemma mark_slot_length avail s :
  length (mark_slot start_slot end_slot avail s) = length avail.
Proof. unfold mark_slot. case_match; [apply length_insert | done]. Qed.

Lemma foldl_mark_slot_length ss : forall avail,
  length (foldl (mark_slot start_slot end_slot) avail ss) = length avail.
Proof.
  induction ss as [|s ss IH]; intros avail; simpl; [done|].
  by rewrite IH, mark_slot_length.
Qed.

Lemma mark_slot_lookup avail s (i : nat) :
  mark_slot start_slot end_slot avail s !! i = Some true <->
  avail !! i = Some true \/
  ((i < length avail)%nat /\ Z.to_nat s = i /\ start_slot <= s < end_slot).
Proof.
  unfold mark_slot.
  destruct (bool_decide (s >= start_slot)) eqn:E1;
    destruct (bool_decide (s < end_slot)) eqn:E2; simpl;
    try apply bool_decide_eq_true in E1; try apply bool_decide_eq_true in E2;
    try apply bool_decide_eq_false in E1;
    try apply bool_decide_eq_false in E2;
    try (split; [by left | intros [?|(?&?&?)]; [done | lia]]).
  destruct (decide (Z.to_nat s = i)) as [Heq|Hne].
  - rewrite Heq.
    destruct (decide (i < length avail)%nat) as [Hlt|Hge].
    + rewrite list_lookup_insert_eq by done.
      split; [intros _; right; repeat split; lia | done].
    + rewrite list_insert_ge by lia.
      split; [by left | intros [?|(?&?&?)]; [done | lia]].
  - rewrite list_lookup_insert_ne by done.
    split; [by left | intros [?|(?&?&?)]; [done | lia]].
Qed.

Lemma foldl_mark_slot_lookup ss : forall avail (i : nat),
  foldl (mark_slot start_slot end_slot) avail ss !! i = Some true <->
  avail !! i = Some true \/
  ((i < length avail)%nat /\
   exists s, s ∈ ss /\ Z.to_nat s = i /\ start_slot <= s < end_slot).
Proof.
  induction ss as [|s ss IH]; intros avail i; simpl.
  - split; [by left | intros [?|(_&s&Hs&_)]; [done|]].
    by apply elem_of_nil in Hs.
  - rewrite IH, mark_slot_lookup, mark_slot_length. split.
    + intros [[?|(?&?&?)]|(?&s'&?&?&?)].
      * by left.
      * right. split; [done|]. exists s. split; [left|done].
      * right. split; [done|]. exists s'. split; [by right|done].
    + intros [?|(?&s'&Hs'&?&?)]; [by left; left|].
      apply elem_of_cons in Hs' as [->|Hs'].
      * left; right. done.
      * right. split; [done|]. by exists s'.
Qed.
End Availability.

Lemma local_window_length off st en :
  length (local_window_to_utc_slots off st en) = Z.to_nat HORIZON_SLOTS.
Proof.
  unfold local_window_to_utc_slots.
  by rewrite foldl_mark_slot_length, length_replicate.
Qed.

Lemma local_window_lookup off st en (s : nat) :
  local_window_to_utc_slots off st en !! s = Some true <->
  Z.of_nat s < HORIZON_SLOTS /\
  window_start_slot off st <= Z.of_nat s < window_end_slot off en.
Proof.
  unfold local_window_to_utc_slots.
  rewrite foldl_mark_slot_lookup, length_replicate. split.
  - intros [H|(Hlt&z&Hz&Hzs&Hin)].
    + apply lookup_replicate in H as [? _]. done.
    + apply elem_of_range in Hz. split; lia.
  - intros [Hlt Hin]. right. split; [lia|].
    exists (Z.of_nat s). rewrite elem_of_range. repeat split; lia.
Qed.

Lemma local_window_lookup_false off st en (s : nat) :
  Z.of_nat s < HORIZON_SLOTS ->
  ~ (window_start_slot off st <= Z.of_nat s < window_end_slot off en) ->
  local_window_to_utc_slots off st en !! s = Some false.
Proof.
  intros Hlt Hout.
  destruct (local_window_to_utc_slots off st en !! s) as [[|]|] eqn:E.
  - apply local_window_lookup in E. tauto.
  - done.
  - apply lookup_ge_None in E. rewrite local_window_length in E. lia.
Qed.

(** C9. [local_window_to_utc_slots] clamps and does not wrap: with
    [startSlot = floor((localStartMinutes - offsetMinutes) / SLOT_MIN)] and
    [endSlot = ceil((localEndMinutes - offsetMinutes) / SLOT_MIN)], the
    vector has [HORIZON_SLOTS] entries and is true exactly on the slots [s]
    with [max(0, startSlot) <= s < min(HORIZON_SLOTS, endSlot)]; every other
    slot of the horizon is false, so the part of the shifted window before
    slot 0 or from [HORIZON_SLOTS] on is dropped. *)
Theorem local_window_clamps (off : Z) (st en : time) :
  let startSlot := floor_div (local_minutes_of st - off * 60) SLOT_MIN in
  let endSlot := ceil_div (local_minutes_of en - off * 60) SLOT_MIN in
  let avail := local_window_to_utc_slots off st en in
  length avail = Z.to_nat HORIZON_SLOTS /\
  (forall s : nat,
     avail !! s = Some true <->
     Z.max 0 startSlot <= Z.of_nat s < Z.min HORIZON_SLOTS endSlot) /\
  (forall s : nat,
     avail !! s = Some false <->
     Z.of_nat s < HORIZON_SLOTS /\
     ~ (startSlot <= Z.of_nat s < endSlot)).
Proof.
  intros startSlot endSlot avail.
  assert (Hs : window_start_slot off st = startSlot) by reflexivity.
  assert (He : window_end_slot off en = endSlot) by reflexivity.
  split; [apply local_window_length|]. split; intros s.
  - unfold avail. rewrite local_window_lookup, Hs, He. lia.
  - split.
    + intros H.
      assert (Z.of_nat s < HORIZON_SLOTS) as Hlt.
      { apply lookup_lt_Some in H. unfold avail in H.
        rewrite local_window_length in H. lia. }
      split; [done|]. intros Hin.
      assert (avail !! s = Some true) as Ht; [|congruence].
      apply local_window_lookup. by rewrite Hs, He.
    + intros [Hlt Hout]. apply local_window_lookup_false; [done|].
      by rewrite Hs, He.
Qed.

(** C1, as amended. The availability vector has [HORIZON_SLOTS] entries and
    is true exactly on the slots of the horizon that overlap the local
    window when slot bounds are converted to local time without reduction
    modulo the day; for a window that starts on a slot boundary these are
    the slots whose local start time, not reduced modulo the day, lies in
    [[localStart, localEnd)]. *)
Theorem availability_clips_local_window (off : Z) (st en : time) :
  let avail := local_window_to_utc_slots off st en in
  length avail = Z.to_nat HORIZON_SLOTS /\
  (forall s : nat,
     avail !! s = Some true <->
     Z.of_nat s < HORIZON_SLOTS /\
     local_minutes_of st < (Z.of_nat s + 1) * SLOT_MIN + off * 60 /\
     Z.of_nat s * SLOT_MIN + off * 60 < local_minutes_of en) /\
  (local_minutes_of st mod SLOT_MIN = 0 ->
   forall s : nat,
     avail !! s = Some true <->
     Z.of_nat s < HORIZON_SLOTS /\
     local_minutes_of st <= Z.of_nat s * SLOT_MIN + off * 60
       < local_minutes_of en).
Proof.
  intros avail.
  assert (Hchar : forall s : nat,
     avail !! s = Some true <->
     Z.of_nat s < HORIZON_SLOTS /\
     local_minutes_of st < (Z.of_nat s + 1) * SLOT_MIN + off * 60 /\
     Z.of_nat s * SLOT_MIN + off * 60 < local_minutes_of en).
  { intros s. unfold avail. rewrite local_window_lookup.
    unfold window_start_slot, window_end_slot.
    fold (local_minutes_of st). fold (local_minutes_of en).
    rewrite floor_div_le, lt_ceil_div by done.
    unfold SLOT_MIN. lia. }
  split; [apply local_window_length|]. split; [exact Hchar|].
  intros Hal s. rewrite Hchar.
  apply Z.mod_divide in Hal as [k Hk]; [|done].
  unfold SLOT_MIN in *. lia.
Qed.

Lemma availability_clips_local_window_witness :
  local_minutes_of (Time 9 0) mod SLOT_MIN = 0 /\
  (local_window_to_utc_slots 14 (Time 9 0) (Time 17 0) !! 5%nat = Some true <->
   Z.of_nat 5 < HORIZON_SLOTS /\
   local_minutes_of (Time 9 0) <= Z.of_nat 5 * SLOT_MIN + 14 * 60
     < local_minutes_of (Time 17 0)).
Proof.
  split; [reflexivity|].
  apply (proj2 (proj2 (availability_clips_local_window 14 (Time 9 0) (Time 17 0)))).
  reflexivity.
Defined.

(** C1, as stated, fails: for offset +14 and the window 9-17, slot 40
    (20:00 UTC, 10:00 local time) lies in the window modulo the day, yet
    the vector is false there. *)
Lemma availability_wraps_counterexample :
  ~ availability_wraps 14 (Time 9 0) (Time 17 0).
Proof.
  intros [_ H]. specialize (H 40%nat ltac:(reflexivity)).
  destruct H as [_ H]. specialize (H ltac:(reflexivity)).
  vm_compute in H. discriminate H.
Qed.

(** ** The dicts built from the participant table *)

Lemma foldl_insert_lookup {A B} (key : A -> string) (val : A -> B)
    (l : list A) : forall (d : gmap string B) k v,
  foldl (fun d x => <[key x := val x]> d) d l !! k = Some v ->
  d !! k = Some v \/ exists x, x ∈ l /\ key x = k /\ val x = v.
Proof.
  induction l as [|x l IH]; intros d k v; simpl; [by left|].
  intros H. apply IH in H as [H|(y&?&?&?)].
  - destruct (decide (key x = k)) as [<-|Hne].
    + rewrite lookup_insert_eq in H. right. exists x.
      split; [left|]. split; congruence.
    + rewrite lookup_insert_ne in H by done. by left.
  - right. exists y. split; [by right|done].
Qed.

Lemma foldl_insert_is_Some {A B} (key : A -> string) (val : A -> B)
    (l : list A) : forall (d : gmap string B) k,
  is_Some (d !! k) \/ k ∈ key <$> l ->
  is_Some (foldl (fun d x => <[key x := val x]> d) d l !! k).
Proof.
  induction l as [|x l IH]; intros d k; simpl.
  - intros [?|H]; [done|]. by apply elem_of_nil in H.
  - intros [H|H]; apply IH.
    + left. destruct (decide (key x = k)) as [<-|Hne].
      * rewrite lookup_insert_eq. eauto.
      * by rewrite lookup_insert_ne.
    + apply elem_of_cons in H as [->|H]; [left|by right].
      rewrite lookup_insert_eq. eauto.
Qed.

Lemma participant_avail_lookup ps p avail :
  build_participant_avail ps !! p = Some avail ->
  exists q, q ∈ ps /\ p_name q = p /\
    avail = local_window_to_utc_slots (p_utc_off q) (p_start_local q)
              (p_end_local q).
Proof.
  intros H. apply foldl_insert_lookup in H as [H|(q&?&?&?)].
  - by rewrite lookup_empty in H.
  - by exists q.
Qed.

Lemma participant_avail_length ps p avail :
  build_participant_avail ps !! p = Some avail ->
  length avail = Z.to_nat HORIZON_SLOTS.
Proof.
  intros (q&_&_&->)%participant_avail_lookup. apply local_window_length.
Qed.

Lemma participant_avail_known ps p :
  p ∈ p_name <$> ps -> is_Some (build_participant_avail ps !! p).
Proof.
  intros H. unfold build_participant_avail.
  apply (foldl_insert_is_Some p_name
           (fun q => local_window_to_utc_slots (p_utc_off q)
                       (p_start_local q) (p_end_local q))).
  by right.
Qed.

Lemma participant_offsets_known ps p :
  p ∈ p_name <$> ps -> is_Some (build_participant_utc_offsets ps !! p).
Proof.
  intros H. unfold build_participant_utc_offsets.
  apply (foldl_insert_is_Some p_name p_utc_off). by right.
Qed.

(** ** Candidate generation *)

Lemma py_index_nonneg {A} (l : list A) (i : Z) :
  0 <= i -> py_index l i = l !! Z.to_nat i.
Proof. intros H. unfold py_index. by rewrite bool_decide_eq_true_2. Qed.

Section Candidates.
Variable pa : gmap string (list bool).

Lemma slots_free_true p ts :
  slots_free pa p ts = Some true <-> Forall (free_at pa p) ts.
Proof.
  induction ts as [|t ts IH]; simpl.
  - split; [constructor | done].
  - rewrite Forall_cons, <- IH. unfold free_at.
    destruct (pa !! p) as [avail|] eqn:Hp; simpl.
    2: { split; [done|]. by intros [(a&Ha&_) _]. }
    destruct (py_index avail t) as [[|]|] eqn:Ht; simpl.
    + split; [intros H; split; [by exists avail | done] | by intros [_ H]].
    + split; [done|]. intros [(a&[= <-]&Ha) _]. congruence.
    + split; [done|]. intros [(a&[= <-]&Ha) _]. congruence.
Qed.

Lemma slots_free_is_Some p ts avail :
  pa !! p = Some avail ->
  Forall (fun t => is_Some (py_index avail t)) ts ->
  is_Some (slots_free pa p ts).
Proof.
  intros Hp. induction 1 as [|t ts [b Hb] _ IH]; simpl; [eauto|].
  rewrite Hp. simpl. rewrite Hb. simpl. destruct b; eauto.
Qed.

Lemma required_free_true required s dur_slots :
  required_free pa required s dur_slots = Some true <->
  Forall (fun p => Forall (free_at pa p) (range s (s + dur_slots))) required.
Proof.
  induction required as [|p ps IH]; simpl.
  - split; [constructor | done].
  - rewrite Forall_cons, <- IH, <- slots_free_true.
    destruct (slots_free pa p _) as [[|]|]; simpl.
    + split; [by split | by intros [_ ?]].
    + split; [done | by intros [? _]].
    + split; [done | by intros [? _]].
Qed.

Lemma required_free_is_Some required s dur_slots :
  Forall (fun p => is_Some (slots_free pa p (range s (s + dur_slots))))
         required ->
  is_Some (required_free pa required s dur_slots).
Proof.
  induction 1 as [|p ps [b Hb] _ IH]; simpl; [eauto|].
  rewrite Hb. simpl. destruct b; eauto.
Qed.

Lemma scan_starts_Some required dur_slots starts : forall acc cands,
  scan_starts pa required dur_slots starts acc = Some cands ->
  cands = acc ++ filter (fun s => required_free pa required s dur_slots
                                  = Some true) starts.
Proof.
  induction starts as [|s starts IH]; intros acc cands; simpl.
  - intros [= <-]. by rewrite app_nil_r.
  - destruct (required_free pa required s dur_slots) as [ok|] eqn:E;
      simpl; [|done].
    intros H%IH. subst cands. destruct ok.
    + rewrite filter_cons_True by done. by rewrite <- app_assoc.
    + rewrite filter_cons_False by congruence. done.
Qed.

Lemma scan_starts_is_Some required dur_slots starts : forall acc,
  Forall (fun s => is_Some (required_free pa required s dur_slots)) starts ->
  is_Some (scan_starts pa required dur_slots starts acc).
Proof.
  induction starts as [|s starts IH]; intros acc Hall; simpl; [eauto|].
  apply Forall_cons in Hall as [[ok Hok] Hall].
  rewrite Hok. simpl. by apply IH.
Qed.

Lemma candidates_of_elem m cands s :
  candidates_of pa m = Some cands ->
  s ∈ cands <->
  0 <= s <= HORIZON_SLOTS - duration_slots (m_dur_min m) /\
  forall p, p ∈ m_required m ->
    forall t, s <= t < s + duration_slots (m_dur_min m) -> free_at pa p t.
Proof.
  unfold candidates_of. intros H%scan_starts_Some. subst cands.
  simpl. rewrite list_elem_of_filter, elem_of_range, required_free_true.
  rewrite Forall_forall.
  setoid_rewrite Forall_forall. setoid_rewrite elem_of_range.
  split; intros [H1 H2]; (split; [|lia]) || (split; [lia|]); done.
Qed.

Lemma candidates_of_is_Some m :
  avail_covers pa (m_required m) -> is_Some (candidates_of pa m).
Proof.
  intros Hcov. unfold candidates_of. apply scan_starts_is_Some.
  apply Forall_forall. intros s Hs%elem_of_range.
  apply required_free_is_Some, Forall_forall. intros p Hp.
  destruct (Hcov p Hp) as (avail&Hav&Hlen).
  apply (slots_free_is_Some _ _ avail Hav), Forall_forall.
  intros t Ht%elem_of_range. rewrite py_index_nonneg by lia.
  apply lookup_lt_is_Some. lia.
Qed.
End Candidates.

(** ** The candidate tables *)

Lemma NoDup_fmap_elem_eq {A B} (f : A -> B) (l : list A) (x y : A) :
  NoDup (f <$> l) -> x ∈ l -> y ∈ l -> f x = f y -> x = y.
Proof.
  intros Hnd (i&Hi)%list_elem_of_lookup (j&Hj)%list_elem_of_lookup Hf.
  assert (i = j) as ->; [|congruence].
  apply (NoDup_lookup (f <$> l) i j (f x)); [done| |].
  - by rewrite list_lookup_fmap, Hi.
  - by rewrite list_lookup_fmap, Hj, Hf.
Qed.

Section CandidateTables.
Variable pa : gmap string (list bool).

(** What the loop over [meetings] leaves under the key [mid]: either
    nothing new, or the candidates and duration of a meeting called
    [mid]. *)
Lemma build_candidates_lookup ms : forall tb tb' mid,
  build_candidates pa ms tb = Some tb' ->
  ((mid ∉ m_mid <$> ms) /\
   meeting_candidates tb' !! mid = meeting_candidates tb !! mid /\
   meeting_duration_slots tb' !! mid = meeting_duration_slots tb !! mid)
  \/
  (exists m cands,
     m ∈ ms /\ m_mid m = mid /\
     candidates_of pa m = Some cands /\
     meeting_candidates tb' !! mid = Some cands /\
     meeting_duration_slots tb' !! mid
       = Some (duration_slots (m_dur_min m))).
Proof.
  induction ms as [|m ms IH]; intros tb tb' mid; simpl.
  - intros [= <-]. left. split; [apply not_elem_of_nil|done].
  - destruct (candidates_of pa m) as [cands|] eqn:Hc; simpl; [|done].
    intros H. destruct (IH _ _ mid H) as [(Hnot&H1&H2)|(m'&c'&?&?&?&?&?)].
    + simpl in H1, H2. destruct (decide (m_mid m = mid)) as [Heq|Hne].
      * right. exists m, cands. rewrite H1, H2, <- Heq.
        rewrite !lookup_insert_eq. repeat split; [left|done].
      * left. rewrite H1, H2, !lookup_insert_ne by done.
        split; [|done]. rewrite not_elem_of_cons. done.
    + right. exists m', c'. repeat split; [by right|done..].
Qed.

Lemma build_candidates_is_Some ms : forall tb,
  (forall m, m ∈ ms -> avail_covers pa (m_required m)) ->
  is_Some (build_candidates pa ms tb).
Proof.
  induction ms as [|m ms IH]; intros tb Hcov; simpl; [eauto|].
  destruct (candidates_of_is_Some pa m) as [cands ->].
  { apply Hcov. left. }
  simpl. apply IH. intros m' Hm'. apply Hcov. by right.
Qed.

Lemma build_candidates_member ms tb tb' m :
  build_candidates pa ms tb = Some tb' -> m ∈ ms ->
  exists m' cands,
    m' ∈ ms /\ m_mid m' = m_mid m /\
    candidates_of pa m' = Some cands /\
    meeting_candidates tb' !! m_mid m = Some cands /\
    meeting_duration_slots tb' !! m_mid m
      = Some (duration_slots (m_dur_min m')).
Proof.
  intros H Hm.
  destruct (build_candidates_lookup ms tb tb' (m_mid m) H)
    as [(Hnot&_)|(m'&c'&?&?&?&?&?)].
  - destruct Hnot. apply list_elem_of_fmap. by exists m.
  - by exists m', c'.
Qed.

Lemma build_candidates_NoDup ms tb tb' m :
  build_candidates pa ms tb = Some tb' -> NoDup (m_mid <$> ms) -> m ∈ ms ->
  exists cands,
    candidates_of pa m = Some cands /\
    meeting_candidates tb' !! m_mid m = Some cands /\
    meeting_duration_slots tb' !! m_mid m
      = Some (duration_slots (m_dur_min m)).
Proof.
  intros H Hnd Hm.
  destruct (build_candidates_member ms tb tb' m H Hm)
    as (m'&cands&Hm'&Heq&?&?&?).
  assert (m' = m) as -> by (by apply (NoDup_fmap_elem_eq m_mid ms)).
  by exists cands.
Qed.
End CandidateTables.

Lemma well_formed_avail_covers ps ms m :
  well_formed ps ms -> m ∈ ms ->
  avail_covers (build_participant_avail ps) (m_required m).
Proof.
  intros Hwf Hm p Hp.
  destruct (participant_avail_known ps p (Hwf m Hm p Hp)) as [avail Hav].
  exists avail. split; [done|]. by apply participant_avail_length in Hav.
Qed.

(** ** Decision variables *)

Lemma new_start_vars_ok mid cands : forall st,
  vars_ok st -> vars_ok (new_start_vars mid cands st).
Proof.
  unfold new_start_vars.
  induction cands as [|s cands IH]; intros [n sv] Hok; simpl; [done|].
  apply IH. destruct Hok as [Hlt Hinj]. simpl in *. split; simpl.
  - intros k v. destruct (decide ((mid, s) = k)) as [<-|Hne].
    + rewrite lookup_insert_eq. intros [= <-]. lia.
    + rewrite lookup_insert_ne by done. intros H%Hlt. lia.
  - intros k1 k2 v.
    destruct (decide ((mid, s) = k1)) as [<-|Hne1];
      destruct (decide ((mid, s) = k2)) as [<-|Hne2];
      rewrite ?lookup_insert_eq, ?lookup_insert_ne by done.
    + done.
    + intros [= <-] H%Hlt. lia.
    + intros H%Hlt [= <-]. lia.
    + apply Hinj.
Qed.

Lemma new_start_vars_dom mid cands : forall st k,
  is_Some (snd (new_start_vars mid cands st) !! k) <->
  is_Some (snd st !! k) \/ exists s, s ∈ cands /\ k = (mid, s).
Proof.
  unfold new_start_vars.
  induction cands as [|s cands IH]; intros [n sv] k; simpl.
  - split; [by left|]. intros [?|(s&Hs&_)]; [done|].
    by apply elem_of_nil in Hs.
  - rewrite IH. simpl. rewrite lookup_insert_is_Some. split.
    + intros [[<-|[_ ?]]|(s'&?&?)].
      * right. exists s. split; [left|done].
      * by left.
      * right. exists s'. split; [by right|done].
    + intros [?|(s'&Hs'&->)].
      * destruct (decide ((mid, s) = k)); [left; by left|].
        left. right. done.
      * apply elem_of_cons in Hs' as [->|Hs']; [left; by left|].
        right. by exists s'.
Qed.

Section StartVars.
Variable tb : candidate_tables.

Lemma build_start_vars_ok ms : forall st st',
  build_start_vars tb ms st = Some st' -> vars_ok st -> vars_ok st'.
Proof.
  induction ms as [|m ms IH]; intros st st'; simpl.
  - by intros [= <-].
  - destruct (meeting_candidates tb !! m_mid m) as [cands|]; simpl; [|done].
    intros H Hok. eapply IH; [done|]. by apply new_start_vars_ok.
Qed.

Lemma build_start_vars_dom ms : forall st st' k,
  build_start_vars tb ms st = Some st' ->
  is_Some (snd st' !! k) <->
  is_Some (snd st !! k) \/
  exists m cands s,
    m ∈ ms /\ meeting_candidates tb !! m_mid m = Some cands /\
    s ∈ cands /\ k = (m_mid m, s).
Proof.
  induction ms as [|m ms IH]; intros st st' k; simpl.
  - intros [= <-]. split; [by left|]. intros [?|(m&?&?&Hm&_)]; [done|].
    by apply elem_of_nil in Hm.
  - destruct (meeting_candidates tb !! m_mid m) as [cands|] eqn:Hc;
      simpl; [|done].
    intros H. rewrite (IH _ _ k H), new_start_vars_dom. split.
    + intros [[?|(s&?&->)]|(m'&c'&s&?&?&?&?)].
      * by left.
      * right. exists m, cands, s. repeat split; [left|done..].
      * right. exists m', c', s. repeat split; [by right|done..].
    + intros [?|(m'&c'&s&Hm'&Hc'&?&?)]; [by left; left|].
      apply elem_of_cons in Hm' as [->|Hm'].
      * left. right. exists s. split; congruence.
      * right. by exists m', c', s.
Qed.

Lemma build_start_vars_is_Some ms : forall st,
  (forall m, m ∈ ms -> is_Some (meeting_candidates tb !! m_mid m)) ->
  is_Some (build_start_vars tb ms st).
Proof.
  induction ms as [|m ms IH]; intros st Hall; simpl; [eauto|].
  destruct (Hall m) as [cands ->]; [left|]. simpl.
  apply IH. intros m' Hm'. apply Hall. by right.
Qed.
End StartVars.

(** ** Lists built in the option monad *)

Lemma mapM_Some_elem {A B} (f : A -> option B) (l : list A) (k : list B) :
  mapM f l = Some k ->
  forall y, y ∈ k <-> exists x, x ∈ l /\ f x = Some y.
Proof.
  intros H%mapM_Some_1. induction H as [|x y l k Hxy _ IH]; intros z.
  - split; [by intros ?%elem_of_nil|]. by intros (?&?%elem_of_nil&_).
  - rewrite elem_of_cons, IH. split.
    + intros [->|(x'&?&?)]; [exists x; split; [left|done]|].
      exists x'. split; [by right|done].
    + intros (x'&[->|?]%elem_of_cons&?); [left; congruence|].
      right. by exists x'.
Qed.

Lemma elem_of_concat {A} (ls : list (list A)) (y : A) :
  y ∈ concat ls <-> exists l, l ∈ ls /\ y ∈ l.
Proof.
  induction ls as [|l ls IH]; simpl.
  - split; [by intros ?%elem_of_nil|]. by intros (?&?%elem_of_nil&_).
  - rewrite elem_of_app, IH. split.
    + intros [?|(l'&?&?)]; [exists l; split; [left|done]|].
      exists l'. split; [by right|done].
    + intros (l'&[->|?]%elem_of_cons&?); [by left|]. right. by exists l'.
Qed.

Lemma concat_mapM_elem {A B} (f : A -> option (list B)) (l : list A)
    (k : list B) :
  @concat _ <$> mapM f l = Some k ->
  forall y, y ∈ k <-> exists x ys, x ∈ l /\ f x = Some ys /\ y ∈ ys.
Proof.
  intros (ls&Hls&->)%fmap_Some y. rewrite elem_of_concat. split.
  - intros (ys&Hys&Hy).
    apply (mapM_Some_elem f l ls Hls) in Hys as (x&?&?). by exists x, ys.
  - intros (x&ys&?&?&?). exists ys. split; [|done].
    apply (mapM_Some_elem f l ls Hls). by exists x.
Qed.

Lemma concat_mapM_is_Some {A B} (f : A -> option (list B)) (l : list A) :
  (forall x, x ∈ l -> is_Some (f x)) -> is_Some (@concat _ <$> mapM f l).
Proof.
  intros H. apply fmap_is_Some, mapM_is_Some_2, Forall_forall. exact H.
Qed.

(** ** The constraints *)

Section Constraints.
Variable tb : candidate_tables.
Variable sv : gmap (string * Z) nat.

Lemma exactly_one_empty m :
  meeting_candidates tb !! m_mid m = Some [] ->
  exactly_one_constraint tb sv m = Some (BoolOr []).
Proof. intros H. unfold exactly_one_constraint. by rewrite H. Qed.

Lemma lookup_vars_is_Some mid cands :
  (forall s, s ∈ cands -> is_Some (sv !! (mid, s))) ->
  is_Some (mapM (fun s => sv !! (mid, s)) cands).
Proof. intros H. by apply mapM_is_Some_2, Forall_forall. Qed.

Lemma exactly_one_is_Some ms m :
  keys_ready tb sv ms -> m ∈ ms ->
  is_Some (exactly_one_constraint tb sv m).
Proof.
  intros Hk Hm. destruct (Hk m Hm) as (_&cands&Hc&Hs).
  unfold exactly_one_constraint. rewrite Hc. simpl.
  destruct (lookup_vars_is_Some (m_mid m) cands Hs) as [vs ->].
  simpl. eauto.
Qed.

Lemma occupying_of_meeting_elem p t m l :
  occupying_of_meeting tb sv p t m = Some l ->
  forall v, v ∈ l <->
    p ∈ m_required m /\
    exists dur cands s,
      meeting_duration_slots tb !! m_mid m = Some dur /\
      meeting_candidates tb !! m_mid m = Some cands /\
      s ∈ cands /\ s <= t < s + dur /\ sv !! (m_mid m, s) = Some v.
Proof.
  unfold occupying_of_meeting. case_bool_decide as Hp.
  - destruct (meeting_duration_slots tb !! m_mid m) as [dur|]; [|done].
    destruct (meeting_candidates tb !! m_mid m) as [cands|]; [|done].
    simpl. intros H v. rewrite (mapM_Some_elem _ _ _ H). split.
    + intros (s&[? ?]%list_elem_of_filter&?). split; [done|].
      by exists dur, cands, s.
    + intros (_&dur'&cands'&s&[= <-]&[= <-]&?&?&?). exists s.
      split; [|done]. by apply list_elem_of_filter.
  - intros [= <-] v. split; [by intros ?%elem_of_nil|]. by intros [? _].
Qed.

Lemma occupying_of_meeting_is_Some ms p t m :
  keys_ready tb sv ms -> m ∈ ms ->
  is_Some (occupying_of_meeting tb sv p t m).
Proof.
  intros Hk Hm. destruct (Hk m Hm) as ([dur Hd]&cands&Hc&Hs).
  unfold occupying_of_meeting. case_bool_decide; [|eauto].
  rewrite Hd, Hc. simpl. apply lookup_vars_is_Some.
  intros s [_ ?]%list_elem_of_filter. by apply Hs.
Qed.

Lemma occupying_is_Some ms p t :
  keys_ready tb sv ms -> is_Some (occupying tb sv ms p t).
Proof.
  intros Hk. apply concat_mapM_is_Some. intros m Hm.
  by apply (occupying_of_meeting_is_Some ms).
Qed.

Lemma occupying_elem ms p t occ :
  occupying tb sv ms p t = Some occ ->
  forall v, v ∈ occ <->
    exists m dur cands s,
      m ∈ ms /\ p ∈ m_required m /\
      meeting_duration_slots tb !! m_mid m = Some dur /\
      meeting_candidates tb !! m_mid m = Some cands /\
      s ∈ cands /\ s <= t < s + dur /\ sv !! (m_mid m, s) = Some v.
Proof.
  intros H v. unfold occupying in H.
  rewrite (concat_mapM_elem _ _ _ H). split.
  - intros (m&l&Hm&Hl&Hv).
    apply (occupying_of_meeting_elem _ _ _ _ Hl) in Hv
      as (?&dur&cands&s&?&?&?&?&?).
    by exists m, dur, cands, s.
  - intros (m&dur&cands&s&Hm&Hp&?&?&?&?&?).
    destruct (occupying_of_meeting tb sv p t m) as [l|] eqn:Hl.
    + exists m, l. repeat split; [done..|].
      apply (occupying_of_meeting_elem _ _ _ _ Hl). split; [done|].
      by exists dur, cands, s.
    + exfalso. apply fmap_Some in H as (ls&Hls&_).
      apply mapM_Some_1 in Hls.
      apply list_elem_of_lookup in Hm as (i&Hi).
      destruct (Forall2_lookup_l _ _ _ _ _ Hls Hi) as (y&_&Hy).
      congruence.
Qed.

Lemma double_booking_elem ps ms cs :
  no_double_booking tb sv ps ms = Some cs ->
  forall c, c ∈ cs <->
    exists p t occ,
      p ∈ p_name <$> ps /\ 0 <= t < HORIZON_SLOTS /\
      occupying tb sv ms p t = Some occ /\ occ <> [] /\ c = SumLe occ 1.
Proof.
  intros H c. unfold no_double_booking in H.
  rewrite (concat_mapM_elem _ _ _ H). split.
  - intros (q&cq&Hq&Hcq&Hc).
    apply (concat_mapM_elem _ _ _ Hcq) in Hc as (t&ct&Ht&Hct&Hc).
    unfold double_booking_constraint in Hct.
    destruct (occupying tb sv ms (p_name q) t) as [occ|] eqn:Hocc;
      simpl in Hct; [|done].
    injection Hct as <-. apply elem_of_range in Ht.
    exists (p_name q), t, occ.
    split; [apply list_elem_of_fmap; by exists q|].
    destruct occ as [|v occ]; [by apply elem_of_nil in Hc|].
    apply list_elem_of_singleton in Hc. done.
  - intros (p&t&occ&(q&->&Hq)%list_elem_of_fmap&Ht&Hocc&Hne&->).
    destruct (mapM (double_booking_constraint tb sv ms (p_name q))
                (range 0 HORIZON_SLOTS)) as [lq|] eqn:Hlq.
    + exists q, (concat lq). split; [done|]. rewrite Hlq. split; [done|].
      apply elem_of_concat. exists [SumLe occ 1]. split; [|left].
      apply (mapM_Some_elem _ _ _ Hlq). exists t.
      split; [by apply elem_of_range|].
      unfold double_booking_constraint. rewrite Hocc. simpl.
      by destruct occ.
    + exfalso. apply fmap_Some in H as (ls&Hls&_).
      apply mapM_Some_1 in Hls.
      apply list_elem_of_lookup in Hq as (i&Hi).
      destruct (Forall2_lookup_l _ _ _ _ _ Hls Hi) as (y&_&Hy).
      rewrite Hlq in Hy. done.
Qed.

Lemma no_double_booking_is_Some ps ms :
  keys_ready tb sv ms -> is_Some (no_double_booking tb sv ps ms).
Proof.
  intros Hk. apply concat_mapM_is_Some. intros q _.
  apply concat_mapM_is_Some. intros t _.
  unfold double_booking_constraint.
  destruct (occupying_is_Some ms (p_name q) t Hk) as [occ ->]. simpl. eauto.
Qed.
End Constraints.

(** ** The discomfort penalty *)

Lemma Qlt_bool_iff (x y : Q) : Qlt_bool x y = true <-> (x < y)%Q.
Proof.
  unfold Qlt_bool. rewrite negb_true_iff. split.
  - intros H. apply Qnot_le_lt. intros Hle%Qle_bool_iff. congruence.
  - intros H. destruct (Qle_bool y x) eqn:E; [|done].
    apply Qle_bool_iff in E. by apply Qlt_not_le in H.
Qed.

Lemma Qlt_bool_false (x y : Q) : Qlt_bool x y = false <-> (y <= x)%Q.
Proof.
  unfold Qlt_bool. rewrite negb_false_iff. apply Qle_bool_iff.
Qed.

Lemma discomfort_inside (h : Q) :
  (9 <= h)%Q -> (h < 17)%Q -> discomfort_of_local_hour h = 0.
Proof.
  intros H1%Qle_bool_iff H2%Qlt_bool_iff. unfold discomfort_of_local_hour.
  change (inject_Z 9) with 9%Q. change (inject_Z 17) with 17%Q.
  by rewrite H1, H2.
Qed.

Lemma discomfort_before (h : Q) :
  (h < 9)%Q -> discomfort_of_local_hour h = Qceiling (10 * (9 - h)).
Proof.
  intros H. unfold discomfort_of_local_hour.
  change (inject_Z 9) with 9%Q. change (inject_Z 17) with 17%Q.
  change (inject_Z 10) with 10%Q.
  assert (Qle_bool 9 h = false) as ->.
  { destruct (Qle_bool 9 h) eqn:E; [|done].
    apply Qle_bool_iff in E. by apply Qlt_not_le in H. }
  simpl. apply Qlt_bool_iff in H. rewrite H.
  apply Qceiling_comp, Qmult_comm.
Qed.

Lemma discomfort_after (h : Q) :
  (17 <= h)%Q -> discomfort_of_local_hour h = Qceiling (10 * (h - 17)).
Proof.
  intros H. unfold discomfort_of_local_hour.
  change (inject_Z 9) with 9%Q. change (inject_Z 17) with 17%Q.
  change (inject_Z 10) with 10%Q.
  assert (Qlt_bool h 17 = false) as -> by (by apply Qlt_bool_false).
  rewrite andb_false_r.
  assert (Qlt_bool h 9 = false) as ->.
  { apply Qlt_bool_false. apply Qle_trans with 17%Q; [done|exact H]. }
  apply Qceiling_comp, Qmult_comm.
Qed.

Lemma Qceiling_nonneg (x : Q) : (0 <= x)%Q -> 0 <= Qceiling x.
Proof. intros H%Qceiling_resp_le. exact H. Qed.

Lemma discomfort_nonneg (h : Q) : 0 <= discomfort_of_local_hour h.
Proof.
  destruct (Qlt_le_dec h 9) as [Hlt|Hge].
  - rewrite discomfort_before by done. apply Qceiling_nonneg.
    apply Qmult_le_0_compat; [done|].
    apply Qlt_le_weak in Hlt. by apply (Qle_minus_iff h 9).
  - destruct (Qlt_le_dec h 17) as [Hlt|Hge'].
    + by rewrite discomfort_inside.
    + rewrite discomfort_after by done. apply Qceiling_nonneg.
      apply Qmult_le_0_compat; [done|]. by apply (Qle_minus_iff 17 h).
Qed.

(** The local hour is taken at the middle of the slot. *)
Lemma slot_to_local_hour_midpoint (t off : Z) :
  (slot_to_local_hour t off ==
   ((t * SLOT_MIN + SLOT_MIN / 2 + off * 60) mod (24 * 60)) # 60)%Q.
Proof.
  unfold slot_to_local_hour, slot_local_minutes.
  set (m := (t * SLOT_MIN + SLOT_MIN / 2 + off * 60) mod (24 * 60)).
  pose proof (Z.div_mod m 60 ltac:(lia)) as Hdm.
  unfold Qeq, Qplus, Qdiv, Qmult, Qinv, inject_Z. simpl. lia.
Qed.

Lemma penalty_nonneg offs t p : 0 <= penalty offs t p.
Proof.
  unfold penalty. destruct (offs !! p); [apply discomfort_nonneg|done].
Qed.

Lemma sumZ_nonneg {A} (f : A -> Z) (l : list A) :
  (forall x, x ∈ l -> 0 <= f x) -> 0 <= sumZ f l.
Proof.
  induction l as [|x l IH]; intros H; simpl; [done|].
  assert (0 <= f x) by (apply H; left).
  assert (0 <= sumZ f l) by (apply IH; intros y Hy; apply H; by right).
  lia.
Qed.

Lemma occupied_penalty_nonneg offs required s dur :
  0 <= occupied_penalty offs required s dur.
Proof.
  apply sumZ_nonneg. intros t _. apply sumZ_nonneg. intros p _.
  apply penalty_nonneg.
Qed.

(** ** The table of start costs *)

Section StartCost.
Variable offs : gmap string Z.

Lemma slot_discomfort_penalty t p d :
  slot_discomfort_for_participant offs t p = Some d -> d = penalty offs t p.
Proof.
  unfold slot_discomfort_for_participant, penalty.
  destruct (offs !! p); simpl; [|done]. by intros [= <-].
Qed.

Lemma add_required_cost_Some t required : forall cost c,
  add_required_cost offs t required cost = Some c ->
  c = cost + sumZ (penalty offs t) required.
Proof.
  induction required as [|p ps IH]; intros cost c; simpl.
  - intros [= <-]. lia.
  - destruct (slot_discomfort_for_participant offs t p) as [d|] eqn:Hd;
      simpl; [|done].
    intros H%IH. apply slot_discomfort_penalty in Hd. lia.
Qed.

Lemma add_required_cost_is_Some t required : forall cost,
  (forall p, p ∈ required -> is_Some (offs !! p)) ->
  is_Some (add_required_cost offs t required cost).
Proof.
  induction required as [|p ps IH]; intros cost Hk; simpl; [eauto|].
  unfold slot_discomfort_for_participant at 1.
  destruct (Hk p) as [off ->]; [left|]. simpl.
  apply IH. intros q Hq. apply Hk. by right.
Qed.

Lemma add_slots_cost_Some required ts : forall cost c,
  add_slots_cost offs required ts cost = Some c ->
  c = cost + sumZ (fun t => sumZ (penalty offs t) required) ts.
Proof.
  induction ts as [|t ts IH]; intros cost c; simpl.
  - intros [= <-]. lia.
  - destruct (add_required_cost offs t required cost) as [c1|] eqn:Hc1;
      simpl; [|done].
    intros H%IH. apply add_required_cost_Some in Hc1. lia.
Qed.

Lemma add_slots_cost_is_Some required ts : forall cost,
  (forall p, p ∈ required -> is_Some (offs !! p)) ->
  is_Some (add_slots_cost offs required ts cost).
Proof.
  induction ts as [|t ts IH]; intros cost Hk; simpl; [eauto|].
  destruct (add_required_cost_is_Some t required cost Hk) as [c ->].
  simpl. by apply IH.
Qed.

Lemma candidate_cost_Some required s dur c :
  candidate_cost offs required s dur = Some c ->
  c = occupied_penalty offs required s dur.
Proof.
  unfold candidate_cost. intros H%add_slots_cost_Some.
  unfold occupied_penalty. lia.
Qed.

Lemma candidate_cost_known required s dur :
  (forall p, p ∈ required -> is_Some (offs !! p)) ->
  candidate_cost offs required s dur
    = Some (occupied_penalty offs required s dur).
Proof.
  intros Hk.
  destruct (add_slots_cost_is_Some required (range s (s + dur)) 0 Hk)
    as [c Hc].
  unfold candidate_cost. rewrite Hc. f_equal.
  by apply candidate_cost_Some.
Qed.

Lemma add_start_costs_lookup m dur cands : forall sc0 sc k,
  add_start_costs offs m dur cands sc0 = Some sc ->
  (exists s, s ∈ cands /\ k = (m_mid m, s) /\
     sc !! k = Some (occupied_penalty offs (m_required m) s dur))
  \/
  ((forall s, s ∈ cands -> k <> (m_mid m, s)) /\ sc !! k = sc0 !! k).
Proof.
  induction cands as [|s cands IH]; intros sc0 sc k; simpl.
  - intros [= <-]. right. split; [|done]. by intros s ?%elem_of_nil.
  - destruct (candidate_cost offs (m_required m) s dur) as [c|] eqn:Hc;
      simpl; [|done].
    intros H. destruct (IH _ _ k H) as [(s'&?&?&?)|[Hnot Hk]].
    + left. exists s'. split; [by right|done].
    + destruct (decide (k = (m_mid m, s))) as [->|Hne].
      * left. exists s. split; [left|]. split; [done|].
        rewrite Hk, lookup_insert_eq. f_equal.
        by apply candidate_cost_Some.
      * right. split.
        -- intros s' [->|?]%elem_of_cons; [done|by apply Hnot].
        -- by rewrite Hk, lookup_insert_ne.
Qed.

Lemma add_start_costs_is_Some m dur cands : forall sc0,
  (cands = [] \/ forall p, p ∈ m_required m -> is_Some (offs !! p)) ->
  is_Some (add_start_costs offs m dur cands sc0).
Proof.
  induction cands as [|s cands IH]; intros sc0 Hk; simpl; [eauto|].
  destruct Hk as [?|Hk]; [done|].
  rewrite candidate_cost_known by done. simpl. apply IH. by right.
Qed.

Variable tb : candidate_tables.

Lemma build_start_cost_lookup ms : forall sc0 sc k,
  build_start_cost offs tb ms sc0 = Some sc ->
  (exists m dur cands s,
     m ∈ ms /\
     meeting_duration_slots tb !! m_mid m = Some dur /\
     meeting_candidates tb !! m_mid m = Some cands /\
     s ∈ cands /\ k = (m_mid m, s) /\
     sc !! k = Some (occupied_penalty offs (m_required m) s dur))
  \/
  ((forall m cands s,
      m ∈ ms -> meeting_candidates tb !! m_mid m = Some cands ->
      s ∈ cands -> k <> (m_mid m, s)) /\
   sc !! k = sc0 !! k).
Proof.
  induction ms as [|m ms IH]; intros sc0 sc k; simpl.
  - intros [= <-]. right. split; [|done]. by intros m c s ?%elem_of_nil.
  - destruct (meeting_duration_slots tb !! m_mid m) as [dur|] eqn:Hd;
      simpl; [|done].
    destruct (meeting_candidates tb !! m_mid m) as [cands|] eqn:Hc;
      simpl; [|done].
    destruct (add_start_costs offs m dur cands sc0) as [sc1|] eqn:H1;
      simpl; [|done].
    intros H. destruct (IH _ _ k H)
      as [(m'&dur'&cands'&s&?&?&?&?&?&?)|[Hnot Hk]].
    + left. exists m', dur', cands', s. repeat split; [by right|done..].
    + destruct (add_start_costs_lookup m dur cands sc0 sc1 k H1)
        as [(s&?&?&Hs)|[Hnot1 Hk1]].
      * left. exists m, dur, cands, s. rewrite Hk.
        repeat split; [left|done..].
      * right. split; [|congruence].
        intros m' c' s' [->|?]%elem_of_cons Hc' Hs'.
        -- rewrite Hc in Hc'. injection Hc' as <-. by apply Hnot1.
        -- by apply (Hnot m' c' s').
Qed.

Lemma build_start_cost_is_Some ms : forall sc0,
  (forall m, m ∈ ms ->
     is_Some (meeting_duration_slots tb !! m_mid m) /\
     exists cands, meeting_candidates tb !! m_mid m = Some cands /\
       (cands = [] \/ forall p, p ∈ m_required m -> is_Some (offs !! p))) ->
  is_Some (build_start_cost offs tb ms sc0).
Proof.
  induction ms as [|m ms IH]; intros sc0 Hall; simpl; [eauto|].
  destruct (Hall m) as ([dur ->]&cands&->&Hk); [left|]. simpl.
  destruct (add_start_costs_is_Some m dur cands sc0 Hk) as [sc1 ->].
  simpl. apply IH. intros m' Hm'. apply Hall. by right.
Qed.
End StartCost.

(** ** The encoder as a whole *)

Lemma encode_Some_inv ps ms e :
  encode ps ms = Some e ->
  participant_avail e = build_participant_avail ps /\
  participant_utc_offsets e = build_participant_utc_offsets ps /\
  build_candidates (build_participant_avail ps) ms (CandidateTables ∅ ∅)
    = Some (tables e) /\
  build_start_vars (tables e) ms (0%nat, ∅)
    = Some (num_vars (model e), start_vars e) /\
  mapM (exactly_one_constraint (tables e) (start_vars e)) ms
    = Some (exactly_one e) /\
  no_double_booking (tables e) (start_vars e) ps ms
    = Some (double_booking e) /\
  build_start_cost (build_participant_utc_offsets ps) (tables e) ms ∅
    = Some (start_cost e) /\
  constraints (model e) = exactly_one e ++ double_booking e.
Proof.
  unfold encode. intros H.
  destruct (build_candidates _ ms _) as [tb|] eqn:Htb; simpl in H; [|done].
  destruct (build_start_vars tb ms _) as [[n sv]|] eqn:Hsv;
    simpl in H; [|done].
  destruct (mapM _ ms) as [c1|] eqn:Hc1; simpl in H; [|done].
  destruct (no_double_booking tb sv ps ms) as [c2|] eqn:Hc2;
    simpl in H; [|done].
  destruct (build_start_cost _ tb ms ∅) as [sc|] eqn:Hsc;
    simpl in H; [|done].
  injection H as <-. simpl. done.
Qed.

Lemma tables_keys_ready pa ms tb st sv :
  build_candidates pa ms (CandidateTables ∅ ∅) = Some tb ->
  build_start_vars tb ms st = Some sv ->
  keys_ready tb (snd sv) ms.
Proof.
  intros Htb Hsv m Hm.
  destruct (build_candidates_member pa ms _ tb m Htb Hm)
    as (m'&cands&_&_&_&Hc&Hd).
  split; [by rewrite Hd|]. exists cands. split; [done|].
  intros s Hs. apply (build_start_vars_dom tb ms st sv _ Hsv).
  right. by exists m, cands, s.
Qed.

Lemma encode_is_Some ps ms : well_formed ps ms -> is_Some (encode ps ms).
Proof.
  intros Hwf. unfold encode.
  destruct (build_candidates_is_Some (build_participant_avail ps) ms
              (CandidateTables ∅ ∅)) as [tb Htb].
  { intros m Hm. by apply (well_formed_avail_covers ps ms). }
  rewrite Htb. simpl.
  destruct (build_start_vars_is_Some tb ms (0%nat, ∅)) as [st Hst].
  { intros m Hm.
    destruct (build_candidates_member _ ms _ tb m Htb Hm)
      as (?&cands&_&_&_&Hc&_).
    by rewrite Hc. }
  rewrite Hst. simpl.
  pose proof (tables_keys_ready _ ms tb _ st Htb Hst) as Hk.
  destruct (mapM_is_Some_2 (exactly_one_constraint tb (snd st)) ms)
    as [c1 ->].
  { apply Forall_forall. intros m Hm. by apply (exactly_one_is_Some _ _ ms). }
  simpl.
  destruct (no_double_booking_is_Some tb (snd st) ps ms Hk) as [c2 ->].
  simpl.
  destruct (build_start_cost_is_Some (build_participant_utc_offsets ps) tb
              ms ∅) as [sc ->]; [|simpl; eauto].
  intros m Hm. destruct (Hk m Hm) as (Hd&cands&Hc&_).
  split; [done|]. exists cands. split; [done|]. right.
  intros p Hp. apply participant_offsets_known. by apply (Hwf m).
Qed.

Section Encoded.
Variables (ps : list participant) (ms : list meeting) (e : encoding).
Hypothesis Henc : encode ps ms = Some e.

Lemma encode_keys_ready : keys_ready (tables e) (start_vars e) ms.
Proof.
  destruct (encode_Some_inv ps ms e Henc) as (_&_&Htb&Hsv&_).
  apply (tables_keys_ready _ ms _ _ _ Htb Hsv).
Qed.

Lemma encode_vars_ok : vars_ok (num_vars (model e), start_vars e).
Proof.
  destruct (encode_Some_inv ps ms e Henc) as (_&_&_&Hsv&_).
  apply (build_start_vars_ok _ ms _ _ Hsv).
  split; simpl; intros *; by rewrite lookup_empty.
Qed.

Lemma encode_var_key mid s v :
  start_vars e !! (mid, s) = Some v ->
  exists m cands,
    m ∈ ms /\ m_mid m = mid /\
    meeting_candidates (tables e) !! mid = Some cands /\ s ∈ cands.
Proof.
  destruct (encode_Some_inv ps ms e Henc) as (_&_&_&Hsv&_).
  intros Hv.
  assert (is_Some (start_vars e !! (mid, s))) as Hs by eauto.
  apply (build_start_vars_dom _ ms _ _ _ Hsv) in Hs
    as [Hs|(m&cands&s'&?&?&?&[= -> ->])].
  - simpl in Hs. rewrite lookup_empty in Hs. by destruct Hs.
  - by exists m, cands.
Qed.

(** Whatever sits under a key of the two tables comes from one meeting
    with that id. *)
Lemma encode_table_entry mid cands :
  meeting_candidates (tables e) !! mid = Some cands ->
  exists m,
    m ∈ ms /\ m_mid m = mid /\
    candidates_of (build_participant_avail ps) m = Some cands /\
    meeting_duration_slots (tables e) !! mid
      = Some (duration_slots (m_dur_min m)).
Proof.
  destruct (encode_Some_inv ps ms e Henc) as (_&_&Htb&_).
  intros Hc.
  destruct (build_candidates_lookup _ ms _ _ mid Htb)
    as [(_&H1&_)|(m&c'&?&?&?&H1&?)].
  - simpl in H1. rewrite H1, lookup_empty in Hc. done.
  - exists m. rewrite H1 in Hc. injection Hc as <-. done.
Qed.

Lemma encode_candidate_bounds mid cands dur s :
  meeting_candidates (tables e) !! mid = Some cands ->
  meeting_duration_slots (tables e) !! mid = Some dur ->
  s ∈ cands -> 0 <= s <= HORIZON_SLOTS - dur.
Proof.
  intros Hc Hd Hs.
  destruct (encode_table_entry mid cands Hc) as (m&_&_&Hm&Hd').
  rewrite Hd in Hd'. injection Hd' as ->.
  by apply (candidates_of_elem _ m cands s Hm) in Hs as [? _].
Qed.
End Encoded.

(** ** Sums of Boolean variables *)

Lemma sum_vars_nonneg value vars : 0 <= sum_vars value vars.
Proof.
  induction vars as [|v vars IH]; simpl; [done|].
  destruct (value v); simpl; lia.
Qed.

Lemma sum_vars_one value vars v :
  v ∈ vars -> value v = true -> 1 <= sum_vars value vars.
Proof.
  induction vars as [|w vars IH]; [by intros ?%elem_of_nil|].
  intros [->|Hin]%elem_of_cons Hv; simpl.
  - rewrite Hv. pose proof (sum_vars_nonneg value vars). simpl. lia.
  - specialize (IH Hin Hv). destruct (value w); simpl; lia.
Qed.

Lemma sum_vars_two value vars v1 v2 :
  v1 ∈ vars -> v2 ∈ vars -> v1 <> v2 ->
  value v1 = true -> value v2 = true -> 2 <= sum_vars value vars.
Proof.
  induction vars as [|w vars IH]; [by intros ?%elem_of_nil|].
  intros [->|H1]%elem_of_cons [->|H2]%elem_of_cons Hne Hv1 Hv2; simpl.
  - done.
  - rewrite Hv1. pose proof (sum_vars_one value vars v2 H2 Hv2). simpl. lia.
  - rewrite Hv2. pose proof (sum_vars_one value vars v1 H1 Hv1). simpl. lia.
  - specialize (IH H1 H2 Hne Hv1 Hv2). destruct (value w); simpl; lia.
Qed.

(** ** Checking the hypotheses on concrete tables *)

Lemma well_formed_Forall ps ms :
  Forall (fun m => Forall (fun p => p ∈ p_name <$> ps) (m_required m)) ms ->
  well_formed ps ms.
Proof.
  intros H m Hm p Hp.
  eapply Forall_forall in H; [|exact Hm].
  eapply Forall_forall in H; [exact H|exact Hp].
Qed.

Lemma well_formed_example : well_formed participants meetings.
Proof. apply well_formed_Forall. by apply (bool_decide_unpack _). Qed.

Lemma NoDup_example : NoDup (m_mid <$> meetings).
Proof. by apply (bool_decide_unpack _). Qed.

(** ** The claims about the encoder *)

(** C2. For every meeting, the candidate set the program generates contains
    a start slot [s] if and only if [0 <= s <= HORIZON_SLOTS -
    durationSlots] and every required participant's availability vector is
    true at every slot of [[s, s + durationSlots)].  Meeting ids are unique
    and required participants are known, as the data model demands. *)
Theorem candidates_exact (ps : list participant) (ms : list meeting)
    (m : meeting) :
  well_formed ps ms -> NoDup (m_mid <$> ms) -> m ∈ ms ->
  exists e cands,
    encode ps ms = Some e /\
    meeting_candidates (tables e) !! m_mid m = Some cands /\
    forall s,
      s ∈ cands <->
      0 <= s <= HORIZON_SLOTS - duration_slots (m_dur_min m) /\
      forall p, p ∈ m_required m ->
        forall t, s <= t < s + duration_slots (m_dur_min m) ->
          exists avail,
            participant_avail e !! p = Some avail /\
            avail !! Z.to_nat t = Some true.
Proof.
  intros Hwf Hnd Hm.
  destruct (encode_is_Some ps ms Hwf) as [e He].
  destruct (encode_Some_inv ps ms e He) as (Hpa&_&Htb&_).
  destruct (build_candidates_NoDup _ ms _ _ m Htb Hnd Hm)
    as (cands&Hc&Hmc&_).
  exists e, cands. split; [done|]. split; [done|]. intros s.
  rewrite (candidates_of_elem _ m cands s Hc), Hpa. unfold free_at.
  split; intros [Hs Hfree]; (split; [done|]); intros p Hp t Ht;
    destruct (Hfree p Hp t Ht) as (avail&?&Hav); exists avail;
    (split; [done|]).
  - by rewrite py_index_nonneg in Hav by lia.
  - by rewrite py_index_nonneg by lia.
Qed.

Lemma candidates_exact_witness :
  well_formed participants meetings /\
  NoDup (m_mid <$> meetings) /\
  Meeting "Eng.AllHands" "Engineering" 30 ["Bob"; "Cara"; "Dan"] ∈ meetings /\
  exists e cands,
    encode participants meetings = Some e /\
    meeting_candidates (tables e) !! "Eng.AllHands" = Some cands /\
    forall s,
      s ∈ cands <->
      0 <= s <= HORIZON_SLOTS - duration_slots 30 /\
      forall p, p ∈ ["Bob"; "Cara"; "Dan"] ->
        forall t, s <= t < s + duration_slots 30 ->
          exists avail,
            participant_avail e !! p = Some avail /\
            avail !! Z.to_nat t = Some true.
Proof.
  split; [exact well_formed_example|]. split; [exact NoDup_example|].
  assert (Hin : Meeting "Eng.AllHands" "Engineering" 30
                  ["Bob"; "Cara"; "Dan"] ∈ meetings)
    by (right; left).
  split; [exact Hin|].
  exact (candidates_exact participants meetings _
           well_formed_example NoDup_example Hin).
Defined.

Lemma exactly_one_not_SumLe ps ms e occ k :
  encode ps ms = Some e -> SumLe occ k ∉ exactly_one e.
Proof.
  intros He Hin.
  destruct (encode_Some_inv ps ms e He) as (_&_&_&_&Hc1&_).
  apply (mapM_Some_elem _ _ _ Hc1) in Hin as (m&_&Hm).
  unfold exactly_one_constraint in Hm.
  destruct (meeting_candidates (tables e) !! m_mid m); simpl in Hm; [|done].
  destruct (mapM _ _) as [[|v vs]|]; simpl in Hm; done.
Qed.

Lemma occupying_covers ps ms e p t occ :
  encode ps ms = Some e ->
  occupying (tables e) (start_vars e) ms p t = Some occ ->
  forall v,
    v ∈ occ <->
    exists key, start_vars e !! key = Some v /\ covers ms (tables e) key p t.
Proof.
  intros He Hocc v. rewrite (occupying_elem _ _ ms p t occ Hocc). split.
  - intros (m&dur&cands&s&?&?&?&?&?&?&?). exists (m_mid m, s).
    split; [done|]. by exists m, dur.
  - intros ([mid s]&Hv&m&dur&?&Hmid&?&Hd&?). simpl in *. subst mid.
    destruct (encode_var_key ps ms e He _ _ _ Hv) as (_&cands&_&_&?&?).
    by exists m, dur, cands, s.
Qed.

(** C3. In every assignment that satisfies the encoded constraints, for
    every participant and every slot at most one true meeting variable
    covers that pair; and the [<= 1] constraints of the model are exactly
    the sums of the covering variables of the (participant, slot) pairs
    that have at least one covering variable, a pair without one getting no
    constraint. *)
Theorem no_double_booking_encoded (ps : list participant)
    (ms : list meeting) :
  well_formed ps ms ->
  exists e,
    encode ps ms = Some e /\
    (forall value, model_sat value (model e) ->
       forall p t key1 key2 v1 v2,
         start_vars e !! key1 = Some v1 -> start_vars e !! key2 = Some v2 ->
         value v1 = true -> value v2 = true ->
         covers ms (tables e) key1 p t -> covers ms (tables e) key2 p t ->
         key1 = key2) /\
    (forall p t,
       exists occ,
         occupying (tables e) (start_vars e) ms p t = Some occ /\
         (forall v,
            v ∈ occ <->
            exists key,
              start_vars e !! key = Some v /\ covers ms (tables e) key p t))
    /\
    (forall vars k,
       SumLe vars k ∈ constraints (model e) <->
       k = 1 /\ vars <> [] /\
       exists p t,
         p ∈ p_name <$> ps /\ 0 <= t < HORIZON_SLOTS /\
         occupying (tables e) (start_vars e) ms p t = Some vars).
Proof.
  intros Hwf. destruct (encode_is_Some ps ms Hwf) as [e He]. exists e.
  destruct (encode_Some_inv ps ms e He) as (_&_&_&_&_&Hc2&_&Hcs).
  pose proof (encode_keys_ready ps ms e He) as Hk.
  assert (Hemit : forall vars k,
    SumLe vars k ∈ constraints (model e) <->
    k = 1 /\ vars <> [] /\
    exists p t,
      p ∈ p_name <$> ps /\ 0 <= t < HORIZON_SLOTS /\
      occupying (tables e) (start_vars e) ms p t = Some vars).
  { intros vars k. rewrite Hcs, elem_of_app.
    rewrite (double_booking_elem _ _ ps ms _ Hc2). split.
    - intros [Hin|(p&t&occ&?&?&?&?&[= -> ->])].
      + by apply (exactly_one_not_SumLe ps ms e) in Hin.
      + split; [done|]. split; [done|]. by exists p, t.
    - intros (->&?&p&t&?&?&?). right. by exists p, t, vars. }
  split; [done|]. split; [|split; [|exact Hemit]].
  - intros value Hsat p t key1 key2 v1 v2 Hv1 Hv2 Ht1 Ht2 Hcov1 Hcov2.
    destruct (decide (key1 = key2)) as [|Hne]; [done|exfalso].
    assert (v1 <> v2) as Hvne.
    { intros ->. apply Hne.
      by apply (proj2 (encode_vars_ok ps ms e He) key1 key2 v2). }
    destruct (occupying_is_Some _ _ ms p t Hk) as [occ Hocc].
    assert (v1 ∈ occ) as Hin1.
    { apply (occupying_covers ps ms e p t occ He Hocc). by exists key1. }
    assert (v2 ∈ occ) as Hin2.
    { apply (occupying_covers ps ms e p t occ He Hocc). by exists key2. }
    assert (SumLe occ 1 ∈ constraints (model e)) as Hc.
    { apply Hemit. split; [done|].
      split; [intros ->; by apply elem_of_nil in Hin1|].
      exists p, t. destruct Hcov1 as (m&dur&Hm&Hmid&Hp&Hd&Hin).
      split; [by apply (Hwf m)|]. split; [|done].
      destruct key1 as [mid s]. simpl in *.
      destruct (encode_var_key ps ms e He _ _ _ Hv1) as (_&cands&_&_&Hc&Hs).
      pose proof (encode_candidate_bounds ps ms e He mid cands dur s Hc Hd Hs).
      lia. }
    unfold model_sat in Hsat.
    eapply Forall_forall in Hsat; [|exact Hc]. simpl in Hsat.
    apply Z.leb_le in Hsat.
    pose proof (sum_vars_two value occ v1 v2 Hin1 Hin2 Hvne Ht1 Ht2). lia.
  - intros p t. destruct (occupying_is_Some _ _ ms p t Hk) as [occ Hocc].
    exists occ. split; [done|]. by apply (occupying_covers ps ms e).
Qed.

Lemma no_double_booking_encoded_witness :
  well_formed participants meetings /\
  exists e,
    encode participants meetings = Some e /\
    (forall value, model_sat value (model e) ->
       forall p t key1 key2 v1 v2,
         start_vars e !! key1 = Some v1 -> start_vars e !! key2 = Some v2 ->
         value v1 = true -> value v2 = true ->
         covers meetings (tables e) key1 p t ->
         covers meetings (tables e) key2 p t ->
         key1 = key2) /\
    (forall p t,
       exists occ,
         occupying (tables e) (start_vars e) meetings p t = Some occ /\
         (forall v,
            v ∈ occ <->
            exists key,
              start_vars e !! key = Some v /\
              covers meetings (tables e) key p t))
    /\
    (forall vars k,
       SumLe vars k ∈ constraints (model e) <->
       k = 1 /\ vars <> [] /\
       exists p t,
         p ∈ p_name <$> participants /\ 0 <= t < HORIZON_SLOTS /\
         occupying (tables e) (start_vars e) meetings p t = Some vars).
Proof.
  split; [exact well_formed_example|].
  exact (no_double_booking_encoded participants meetings well_formed_example).
Defined.



(** C5. When the candidate set of a meeting is empty, the encoder adds the
    empty disjunction, which no assignment satisfies, so the whole model is
    infeasible. *)
Theorem empty_candidates_infeasible (ps : list participant)
    (ms : list meeting) (e : encoding) (m : meeting) :
  encode ps ms = Some e -> m ∈ ms ->
  meeting_candidates (tables e) !! m_mid m = Some [] ->
  BoolOr [] ∈ constraints (model e) /\
  (forall value, constraint_holds value (BoolOr []) = false) /\
  infeasible (model e).
Proof.
  intros He Hm Hc.
  destruct (encode_Some_inv ps ms e He) as (_&_&_&_&Hc1&_&_&Hcs).
  assert (BoolOr [] ∈ constraints (model e)) as Hin.
  { rewrite Hcs, elem_of_app. left.
    apply (mapM_Some_elem _ _ _ Hc1). exists m. split; [done|].
    by apply exactly_one_empty. }
  split; [done|]. split; [done|].
  intros value Hsat. unfold model_sat in Hsat.
  eapply Forall_forall in Hsat; [|exact Hin]. done.
Qed.

Lemma empty_candidates_infeasible_witness :
  exists e,
    encode far_east [long_review] = Some e /\
    long_review ∈ [long_review] /\
    meeting_candidates (tables e) !! m_mid long_review = Some [] /\
    BoolOr [] ∈ constraints (model e) /\
    (forall value, constraint_holds value (BoolOr []) = false) /\
    infeasible (model e).
Proof.
  destruct (encode far_east [long_review]) as [e|] eqn:He;
    [|by vm_compute in He].
  exists e. split; [done|].
  assert (Hm : long_review ∈ [long_review]) by left.
  assert (Hc : meeting_candidates (tables e) !! m_mid long_review = Some []).
  { vm_compute in He. injection He as <-. reflexivity. }
  split; [exact Hm|]. split; [exact Hc|].
  exact (empty_candidates_infeasible far_east [long_review] e long_review
           He Hm Hc).
Defined.

(** ** The decoder *)

Section Decoder.
Variables (value : nat -> bool) (sv : gmap (string * Z) nat).

Lemma find_chosen_Some mid cands s :
  find_chosen value sv mid cands = Some (Some s) ->
  s ∈ cands /\ exists v, sv !! (mid, s) = Some v /\ value v = true.
Proof.
  induction cands as [|s' cands IH]; simpl; [done|].
  destruct (sv !! (mid, s')) as [v|] eqn:Hv; simpl; [|done].
  case_bool_decide as Hb.
  - intros [= <-]. split; [left|]. exists v. split; [done|].
    by destruct (value v).
  - intros [Hin Hx]%IH. split; [by right|done].
Qed.

Lemma find_chosen_is_Some mid cands :
  (forall s, s ∈ cands -> is_Some (sv !! (mid, s))) ->
  is_Some (find_chosen value sv mid cands).
Proof.
  induction cands as [|s cands IH]; intros Hk; simpl; [eauto|].
  destruct (Hk s) as [v ->]; [left|]. simpl.
  case_bool_decide; [eauto|]. apply IH. intros s' Hs'. apply Hk. by right.
Qed.
End Decoder.

Lemma local_times_is_Some offs bounds required :
  (forall p, p ∈ required -> is_Some (offs !! p)) ->
  is_Some (mapM (local_time_of offs bounds) required).
Proof.
  intros Hk. apply mapM_is_Some_2, Forall_forall. intros p Hp. simpl.
  unfold local_time_of. destruct bounds as [[a b]|]; [|eauto].
  destruct (Hk p Hp) as [off ->]. simpl. eauto.
Qed.


Lemma decode_meeting_is_Some ps ms e value m :
  well_formed ps ms -> encode ps ms = Some e -> m ∈ ms ->
  is_Some (decode_meeting e value m).
Proof.
  intros Hwf He Hm.
  destruct (encode_Some_inv ps ms e He) as (_&Hoffs&_&_&_&_&Hsc&_).
  destruct (encode_keys_ready ps ms e He m Hm) as ([dur Hd]&cands&Hc&Hv).
  assert (Hk : forall p, p ∈ m_required m ->
                         is_Some (participant_utc_offsets e !! p)).
  { intros p Hp. rewrite Hoffs. apply participant_offsets_known.
    by apply (Hwf m). }
  unfold decode_meeting. rewrite Hc. simpl.
  destruct (find_chosen_is_Some value (start_vars e) (m_mid m) cands Hv)
    as [chosen Hch].
  rewrite Hch. simpl. destruct chosen as [s|].
  - rewrite Hd. simpl.
    destruct (local_times_is_Some (participant_utc_offsets e)
                (Some (EPOCH_DATE + s * SLOT_MIN,
                       EPOCH_DATE + s * SLOT_MIN + dur * SLOT_MIN))
                (m_required m) Hk) as [lt ->].
    simpl. apply find_chosen_Some in Hch as [Hs _].
    destruct (build_start_cost_lookup _ _ ms _ _ (m_mid m, s) Hsc)
      as [(?&?&?&?&_&_&_&_&_&->)|[Hnot _]]; [simpl; eauto|].
    by destruct (Hnot m cands s Hm Hc Hs).
  - simpl.
    destruct (local_times_is_Some (participant_utc_offsets e) None
                (m_required m) Hk) as [lt ->].
    simpl. eauto.
Qed.

Lemma report_failure e ms status value :
  status <> OPTIMAL -> status <> FEASIBLE ->
  report e ms status value = Some (Output (Some (no_solution_line status)) []).
Proof.
  intros H1 H2. unfold report. rewrite bool_decide_eq_false_2; [done|].
  by intros [?|?].
Qed.




(** The answer of [example_solver] satisfies the model of the example. *)
Example example_solver_sat :
  exists e,
    encode participants meetings = Some e /\
    forallb (constraint_holds (snd (example_solver (model e))))
            (constraints (model e)) = true.
Proof.
  destruct (encode_is_Some participants meetings well_formed_example)
    as [e He].
  exists e. split; [done|].
  assert (H : (e' ← encode participants meetings;
               Some (forallb (constraint_holds (snd (example_solver (model e'))))
                             (constraints (model e')))) = Some true)
    by (vm_compute; reflexivity).
  rewrite He in H. simpl in H. by injection H.
Qed.

(** ** The claims about the run *)



(** C7, as amended. When the solver answers [UNKNOWN], the script takes
    the branch it also takes for [INFEASIBLE] and [MODEL_INVALID]: it
    prints the line "No feasible solution found. Solver status:" followed
    by the raw status and produces an empty table, so the raw status is all
    that tells the two outcomes apart. *)
Theorem unknown_reported_as_no_solution (solver : solver_t)
    (ps : list participant) (ms : list meeting) (e : encoding) :
  encode ps ms = Some e ->
  fst (solver (model e)) = UNKNOWN \/ fst (solver (model e)) = INFEASIBLE \/
    fst (solver (model e)) = MODEL_INVALID ->
  exists out,
    run solver ps ms = Some out /\
    printed out
      = Some ("No feasible solution found. Solver status:",
              fst (solver (model e))) /\
    rows out = [] /\
    outcome_kind out
      = (Some "No feasible solution found. Solver status:", []).
Proof.
  intros He Hst. unfold run. rewrite He. simpl.
  rewrite report_failure by (destruct Hst as [->|[->| ->]]; done).
  eexists. split; [done|]. done.
Qed.

Lemma unknown_reported_as_no_solution_witness :
  exists e,
    encode participants meetings = Some e /\
    (fst (constant_solver UNKNOWN (model e)) = UNKNOWN \/
     fst (constant_solver UNKNOWN (model e)) = INFEASIBLE \/
     fst (constant_solver UNKNOWN (model e)) = MODEL_INVALID) /\
    exists out,
      run (constant_solver UNKNOWN) participants meetings = Some out /\
      printed out
        = Some ("No feasible solution found. Solver status:",
                fst (constant_solver UNKNOWN (model e))) /\
      rows out = [] /\
      outcome_kind out
        = (Some "No feasible solution found. Solver status:", []).
Proof.
  destruct (encode_is_Some participants meetings well_formed_example)
    as [e He].
  exists e. split; [exact He|].
  assert (Hst : fst (constant_solver UNKNOWN (model e)) = UNKNOWN \/
                fst (constant_solver UNKNOWN (model e)) = INFEASIBLE \/
                fst (constant_solver UNKNOWN (model e)) = MODEL_INVALID)
    by (left; reflexivity).
  split; [exact Hst|].
  exact (unknown_reported_as_no_solution (constant_solver UNKNOWN)
           participants meetings e He Hst).
Defined.

(** C7, as stated, fails: on the example tables a solver answering
    [UNKNOWN] and one answering [INFEASIBLE] lead to the same failure text
    and the same empty table. *)
Lemma timeout_reported_distinctly_counterexample :
  ~ timeout_reported_distinctly participants meetings.
Proof.
  intros H.
  destruct (encode_is_Some participants meetings well_formed_example)
    as [e He].
  apply (H (constant_solver UNKNOWN) (constant_solver INFEASIBLE) e
           (Output (Some (no_solution_line UNKNOWN)) [])
           (Output (Some (no_solution_line INFEASIBLE)) []) He).
  - reflexivity.
  - reflexivity.
  - unfold run. rewrite He. simpl. by apply report_failure.
  - unfold run. rewrite He. simpl. by apply report_failure.
  - reflexivity.
Qed.

(** ** Scenarios *)

Lemma participant_avail_NoDup ps q :
  NoDup (p_name <$> ps) -> q ∈ ps ->
  build_participant_avail ps !! p_name q
    = Some (local_window_to_utc_slots (p_utc_off q) (p_start_local q)
              (p_end_local q)).
Proof.
  intros Hnd Hq.
  destruct (participant_avail_known ps (p_name q)) as [avail Hav].
  { apply list_elem_of_fmap. by exists q. }
  rewrite Hav.
  apply participant_avail_lookup in Hav as (q'&Hq'&Heq&->).
  by rewrite (NoDup_fmap_elem_eq p_name ps q' q Hnd Hq' Hq Heq).
Qed.

Lemma offset_14_window (s : nat) :
  local_window_to_utc_slots 14 (Time 9 0) (Time 17 0) !! s = Some true <->
  (s < 6)%nat.
Proof.
  rewrite local_window_lookup.
  change (window_start_slot 14 (Time 9 0)) with (-10).
  change (window_end_slot 14 (Time 17 0)) with 6.
  rewrite HORIZON_SLOTS_eq. lia.
Qed.

Lemma infeasible_model_reported solver ps ms e :
  encode ps ms = Some e -> infeasible (model e) -> solver_sound solver ->
  run solver ps ms
    = Some (Output (Some (no_solution_line (fst (solver (model e))))) []).
Proof.
  intros He Hinf Hsound. unfold run. rewrite He. simpl.
  apply report_failure; intros Hst; apply (Hinf (snd (solver (model e))));
    apply Hsound; auto.
Qed.

Lemma empty_candidates_model ps ms e m :
  encode ps ms = Some e -> m ∈ ms ->
  meeting_candidates (tables e) !! m_mid m = Some [] ->
  BoolOr [] ∈ constraints (model e) /\ infeasible (model e).
Proof.
  intros He Hm Hc.
  destruct (encode_Some_inv ps ms e He) as (_&_&_&_&Hc1&_&_&Hcs).
  assert (BoolOr [] ∈ constraints (model e)) as Hin.
  { rewrite Hcs, elem_of_app. left.
    apply (mapM_Some_elem _ _ _ Hc1). exists m. split; [done|].
    by apply exactly_one_empty. }
  split; [done|].
  intros value Hsat. unfold model_sat in Hsat.
  eapply Forall_forall in Hsat; [|exact Hin]. done.
Qed.

(** C6, as amended. A participant at UTC+14 with the window 9-17 is
    available on slots 0 to 5 of the horizon (UTC 00:00-03:00), so a meeting
    that requires this participant has all its candidate starts in
    [0 .. 6 - durationSlots]; the candidate set is empty when the meeting
    lasts more than 180 minutes, and then the model is infeasible and, with
    a solver that reports success only with a satisfying assignment, the
    run ends with the line "No feasible solution found. Solver status:" and
    an empty table, without raising. *)
Theorem offset_14_candidates (ps : list participant) (ms : list meeting)
    (m : meeting) (p : string) :
  well_formed ps ms -> NoDup (m_mid <$> ms) -> NoDup (p_name <$> ps) ->
  Participant p 14 (Time 9 0) (Time 17 0) ∈ ps ->
  m ∈ ms -> p ∈ m_required m -> 0 < m_dur_min m ->
  exists e avail cands,
    encode ps ms = Some e /\
    participant_avail e !! p = Some avail /\
    (forall s : nat, avail !! s = Some true <-> (s < 6)%nat) /\
    meeting_candidates (tables e) !! m_mid m = Some cands /\
    (forall s, s ∈ cands -> 0 <= s <= 6 - duration_slots (m_dur_min m)) /\
    (180 < m_dur_min m ->
     cands = [] /\ infeasible (model e) /\
     forall solver, solver_sound solver ->
       run solver ps ms
         = Some (Output
                   (Some ("No feasible solution found. Solver status:",
                          fst (solver (model e))))
                   [])).
Proof.
  intros Hwf Hnd Hndp Hq Hm Hp Hdur.
  destruct (encode_is_Some ps ms Hwf) as [e He].
  destruct (encode_Some_inv ps ms e He) as (Hpa&_&Htb&_).
  destruct (build_candidates_NoDup _ ms _ _ m Htb Hnd Hm)
    as (cands&Hc&Hmc&_).
  pose proof (participant_avail_NoDup ps _ Hndp Hq) as Hav. simpl in Hav.
  exists e, (local_window_to_utc_slots 14 (Time 9 0) (Time 17 0)), cands.
  split; [done|]. split; [by rewrite Hpa|].
  split; [exact offset_14_window|]. split; [done|].
  assert (Hdur1 : 0 < duration_slots (m_dur_min m)).
  { apply lt_ceil_div; [done|]. lia. }
  assert (Hbound : forall s, s ∈ cands ->
                     0 <= s <= 6 - duration_slots (m_dur_min m)).
  { intros s Hs.
    apply (candidates_of_elem _ m cands s Hc) in Hs as [Hs Hfree].
    split; [lia|].
    destruct (Hfree p Hp (s + duration_slots (m_dur_min m) - 1)
                ltac:(lia)) as (avail&Hav'&Hidx).
    rewrite Hav in Hav'. injection Hav' as <-.
    rewrite py_index_nonneg in Hidx by lia.
    apply offset_14_window in Hidx. lia. }
  split; [exact Hbound|]. intros Hlong.
  assert (6 < duration_slots (m_dur_min m)) as Hdur7.
  { apply lt_ceil_div; [done|]. unfold SLOT_MIN. lia. }
  assert (cands = []) as ->.
  { apply elem_of_nil_inv. intros s Hs%Hbound. lia. }
  split; [done|].
  destruct (empty_candidates_model ps ms e m He Hm Hmc) as [_ Hinf].
  split; [done|]. intros solver Hsound.
  by apply infeasible_model_reported.
Qed.

Lemma offset_14_candidates_witness :
  well_formed far_east [long_review] /\
  NoDup (m_mid <$> [long_review]) /\
  NoDup (p_name <$> far_east) /\
  Participant "Zed" 14 (Time 9 0) (Time 17 0) ∈ far_east /\
  long_review ∈ [long_review] /\
  "Zed" ∈ m_required long_review /\
  0 < m_dur_min long_review /\
  exists e avail cands,
    encode far_east [long_review] = Some e /\
    participant_avail e !! "Zed" = Some avail /\
    (forall s : nat, avail !! s = Some true <-> (s < 6)%nat) /\
    meeting_candidates (tables e) !! m_mid long_review = Some cands /\
    (forall s, s ∈ cands ->
       0 <= s <= 6 - duration_slots (m_dur_min long_review)) /\
    (180 < m_dur_min long_review ->
     cands = [] /\ infeasible (model e) /\
     forall solver, solver_sound solver ->
       run solver far_east [long_review]
         = Some (Output
                   (Some ("No feasible solution found. Solver status:",
                          fst (solver (model e))))
                   [])).
Proof.
  assert (H1 : well_formed far_east [long_review]).
  { apply well_formed_Forall. by apply (bool_decide_unpack _). }
  assert (H2 : NoDup (m_mid <$> [long_review]))
    by (by apply (bool_decide_unpack _)).
  assert (H3 : NoDup (p_name <$> far_east))
    by (by apply (bool_decide_unpack _)).
  assert (H4 : Participant "Zed" 14 (Time 9 0) (Time 17 0) ∈ far_east)
    by left.
  assert (H5 : long_review ∈ [long_review]) by left.
  assert (H6 : "Zed" ∈ m_required long_review) by left.
  assert (H7 : 0 < m_dur_min long_review) by reflexivity.
  repeat (split; [assumption|]).
  exact (offset_14_candidates far_east [long_review] long_review "Zed"
           H1 H2 H3 H4 H5 H6 H7).
Defined.

(** C6, as stated, fails: the participant at UTC+14 is available on slot 0,
    and a 30-minute meeting requiring this participant has the candidate
    starts 0 to 5. *)
Lemma offset_14_unschedulable_counterexample :
  ~ offset_14_unschedulable short_call.
Proof.
  intros [_ (e&He&Hc)].
  vm_compute in He. injection He as <-.
  vm_compute in Hc. discriminate Hc.
Qed.

Example offset_14_slot_0 :
  local_window_to_utc_slots 14 (Time 9 0) (Time 17 0) !! 0%nat = Some true.
Proof. reflexivity. Qed.

Example short_call_candidates :
  candidates_of (build_participant_avail far_east) short_call
    = Some [0; 1; 2; 3; 4; 5].
Proof. reflexivity. Qed.

Section Trio.
Variables n1 n2 n3 mid team : string.

Local Abbreviation ps := (trio n1 n2 n3).
Local Abbreviation m := (standup mid team n1 n2 n3).

Lemma trio_well_formed : well_formed ps [m].
Proof.
  intros m' ->%list_elem_of_singleton p Hp. simpl in Hp.
  apply list_elem_of_fmap.
  repeat (apply elem_of_cons in Hp as [->|Hp]);
    [exists (office_hours n1) | exists (office_hours n2)
     | exists (office_hours n3) | by apply elem_of_nil in Hp];
    (split; [done|]); unfold ps, trio.
  - left.
  - right; left.
  - right; right; left.
Qed.

Lemma trio_avail p :
  p ∈ [n1; n2; n3] -> build_participant_avail ps !! p = Some office_avail.
Proof.
  intros Hp.
  destruct (participant_avail_known ps p) as [avail Hav].
  { by apply (trio_well_formed m); [left|]. }
  rewrite Hav. apply participant_avail_lookup in Hav as (q&Hq&_&->).
  unfold ps, trio in Hq.
  repeat (apply elem_of_cons in Hq as [->|Hq]); try done.
  by apply elem_of_nil in Hq.
Qed.

Lemma trio_offsets p :
  p ∈ [n1; n2; n3] -> build_participant_utc_offsets ps !! p = Some 0.
Proof.
  intros Hp.
  destruct (participant_offsets_known ps p) as [off Hoff].
  { by apply (trio_well_formed m); [left|]. }
  rewrite Hoff. apply foldl_insert_lookup in Hoff as [Hoff|(q&Hq&_&<-)].
  - by rewrite lookup_empty in Hoff.
  - unfold ps, trio in Hq.
    repeat (apply elem_of_cons in Hq as [->|Hq]); try done.
    by apply elem_of_nil in Hq.
Qed.

Lemma trio_required_free s :
  required_free (build_participant_avail ps) [n1; n2; n3] s 1 = Some true
  <-> py_index office_avail s = Some true.
Proof.
  rewrite required_free_true.
  replace (range s (s + 1)) with [s]
    by (rewrite (range_cons s) by lia; by rewrite range_nil by lia).
  split.
  - intros H. apply Forall_cons in H as [H _].
    apply Forall_cons in H as [(avail&Hav&Hidx) _].
    rewrite trio_avail in Hav by left. by injection Hav as <-.
  - intros H. apply Forall_forall. intros p Hp.
    apply Forall_cons. split; [|constructor].
    exists office_avail. split; [by apply trio_avail|done].
Qed.

Lemma trio_candidates :
  candidates_of (build_participant_avail ps) m = Some (range 18 34).
Proof.
  destruct (candidates_of_is_Some (build_participant_avail ps) m)
    as [cands Hc].
  { by apply (well_formed_avail_covers ps [m]);
      [apply trio_well_formed|left]. }
  rewrite Hc. f_equal. unfold candidates_of in Hc.
  apply scan_starts_Some in Hc. subst cands. simpl.
  change (duration_slots 30) with 1.
  rewrite (list_filter_iff _ (fun s => py_index office_avail s = Some true))
    by apply trio_required_free.
  by vm_compute.
Qed.

Lemma trio_penalty s p :
  s ∈ range 18 34 -> p ∈ [n1; n2; n3] ->
  penalty (build_participant_utc_offsets ps) s p = 0.
Proof.
  intros Hs Hp. unfold penalty. rewrite trio_offsets by done.
  change (range 18 34) with
    [18; 19; 20; 21; 22; 23; 24; 25; 26; 27; 28; 29; 30; 31; 32; 33] in Hs.
  repeat (apply elem_of_cons in Hs as [->|Hs]); try reflexivity.
  by apply elem_of_nil in Hs.
Qed.

Lemma trio_cost s :
  s ∈ range 18 34 ->
  occupied_penalty (build_participant_utc_offsets ps) [n1; n2; n3] s 1 = 0.
Proof.
  intros Hs. unfold occupied_penalty.
  replace (range s (s + 1)) with [s]
    by (rewrite (range_cons s) by lia; by rewrite range_nil by lia).
  simpl. rewrite !trio_penalty; [done|done|..];
    repeat first [done | left | right].
Qed.

(** C8. With three participants whose window is 9-17 at UTC+0 and one
    meeting of 30 minutes that needs all three, the candidate set is
    exactly the slots 18 to 33, and the cost of each of them is 0. *)
Theorem three_at_utc_scenario :
  exists e,
    encode (trio n1 n2 n3) [standup mid team n1 n2 n3] = Some e /\
    meeting_candidates (tables e) !! mid
      = Some [18; 19; 20; 21; 22; 23; 24; 25; 26; 27; 28; 29; 30; 31; 32;
              33] /\
    forall s, 18 <= s <= 33 -> start_cost e !! (mid, s) = Some 0.
Proof.
  destruct (encode_is_Some ps [m] trio_well_formed) as [e He].
  destruct (encode_Some_inv ps [m] e He) as (_&_&Htb&_&_&_&Hsc&_).
  assert (Hnd : NoDup (m_mid <$> [m])) by apply NoDup_singleton.
  destruct (build_candidates_NoDup _ [m] _ _ m Htb Hnd ltac:(left))
    as (cands&Hc&Hmc&Hmd).
  rewrite trio_candidates in Hc. injection Hc as <-.
  exists e. split; [exact He|]. split; [exact Hmc|].
  intros s Hs. assert (s ∈ range 18 34) as Hin by (apply elem_of_range; lia).
  destruct (build_start_cost_lookup _ _ [m] _ _ (mid, s) Hsc)
    as [(m'&dur&?&s'&->%list_elem_of_singleton&Hd&_&_&[= <-]&Hk)|[Hnot _]].
  - rewrite Hk. f_equal. rewrite Hmd in Hd. injection Hd as <-.
    by apply trio_cost.
  - by destruct (Hnot m (range 18 34) s ltac:(left) Hmc Hin).
Qed.
End Trio.

(** * Further properties of the script *)

(** ** The participant dicts *)

Lemma foldl_insert_last {A B} (key : A -> string) (val : A -> B)
    (l : list A) : forall (d : gmap string B) k,
  foldl (fun d x => <[key x := val x]> d) d l !! k
  = match last (filter (fun x => key x = k) l) with
    | Some x => Some (val x)
    | None => d !! k
    end.
Proof.
  induction l as [|x l IH]; intros d k; simpl; [done|].
  rewrite IH, filter_cons. destruct (decide (key x = k)) as [Heq|Hne].
  - rewrite last_cons. destruct (last (filter _ l)); [done|].
    by rewrite <- Heq, lookup_insert_eq.
  - destruct (last (filter _ l)); [done|]. by rewrite lookup_insert_ne.
Qed.

Lemma last_named_None n ps : last_named n ps = None <-> n ∉ p_name <$> ps.
Proof.
  unfold last_named. rewrite last_None. split.
  - intros Hnil (q&->&Hq)%list_elem_of_fmap.
    assert (q ∈ filter (fun q' => p_name q' = p_name q) ps) as Hin
      by (by apply list_elem_of_filter).
    rewrite Hnil in Hin. by apply elem_of_nil in Hin.
  - intros Hnot. apply elem_of_nil_inv. intros q [? ?]%list_elem_of_filter.
    apply Hnot, list_elem_of_fmap. by exists q.
Qed.

Lemma participant_avail_last ps n :
  build_participant_avail ps !! n = avail_of <$> last_named n ps.
Proof.
  unfold build_participant_avail, last_named.
  rewrite (foldl_insert_last p_name
             (fun q => local_window_to_utc_slots (p_utc_off q)
                         (p_start_local q) (p_end_local q))).
  destruct (last _) as [q|]; [unfold avail_of; reflexivity|].
  apply lookup_empty.
Qed.

Lemma participant_offsets_last ps n :
  build_participant_utc_offsets ps !! n = p_utc_off <$> last_named n ps.
Proof.
  unfold build_participant_utc_offsets, last_named.
  rewrite (foldl_insert_last p_name p_utc_off).
  destruct (last _) as [q|]; [reflexivity|]. apply lookup_empty.
Qed.


(** X1. Both dicts built from the participant table hold, under a name, the
    data of the last row with that name (a later row overwrites an earlier
    one), and have no entry for a name that is in no row. *)
Theorem participant_dicts_last_wins (ps : list participant) (n : string) :
  build_participant_avail ps !! n = avail_of <$> last_named n ps /\
  build_participant_utc_offsets ps !! n = p_utc_off <$> last_named n ps /\
  (build_participant_avail ps !! n = None <-> n ∉ p_name <$> ps) /\
  (build_participant_utc_offsets ps !! n = None <-> n ∉ p_name <$> ps).
Proof.
  split; [apply participant_avail_last|].
  split; [apply participant_offsets_last|].
  rewrite participant_avail_last, participant_offsets_last, !fmap_None.
  split; apply last_named_None.
Qed.

(** ** Shape of the availability vector *)

(** X2. The true slots of an availability vector form one run: a slot
    between two available slots is available. *)
Theorem availability_is_interval (off : Z) (st en : time) (i j k : nat) :
  (i <= j <= k)%nat ->
  local_window_to_utc_slots off st en !! i = Some true ->
  local_window_to_utc_slots off st en !! k = Some true ->
  local_window_to_utc_slots off st en !! j = Some true.
Proof.
  rewrite !local_window_lookup. lia.
Qed.

Lemma availability_is_interval_witness :
  (21 <= 25 <= 30)%nat /\
  local_window_to_utc_slots 1 (Time 9 0) (Time 17 0) !! 21%nat = Some true /\
  local_window_to_utc_slots 1 (Time 9 0) (Time 17 0) !! 30%nat = Some true /\
  local_window_to_utc_slots 1 (Time 9 0) (Time 17 0) !! 25%nat = Some true.
Proof.
  assert (H1 : (21 <= 25 <= 30)%nat) by lia.
  assert (H2 : local_window_to_utc_slots 1 (Time 9 0) (Time 17 0) !! 21%nat
               = Some true) by reflexivity.
  assert (H3 : local_window_to_utc_slots 1 (Time 9 0) (Time 17 0) !! 30%nat
               = Some true) by reflexivity.
  repeat (split; [assumption|]).
  exact (availability_is_interval 1 (Time 9 0) (Time 17 0) 21 25 30 H1 H2 H3).
Defined.

Lemma window_start_slot_shift off st :
  window_start_slot (off + 1) st = window_start_slot off st - 2.
Proof.
  unfold window_start_slot, floor_div, SLOT_MIN.
  replace (hour st * 60 + minute st - (off + 1) * 60)
    with (hour st * 60 + minute st - off * 60 + (-2) * 30) by lia.
  rewrite Z.div_add by done. lia.
Qed.

Lemma window_end_slot_shift off en :
  window_end_slot (off + 1) en = window_end_slot off en - 2.
Proof.
  unfold window_end_slot, ceil_div, SLOT_MIN.
  replace (- (hour en * 60 + minute en - (off + 1) * 60))
    with (- (hour en * 60 + minute en - off * 60) + 2 * 30) by lia.
  rewrite Z.div_add by done. lia.
Qed.

(** X3. One more hour of UTC offset moves the availability vector two slots
    towards the start of the horizon: slot [s] of the new vector is slot
    [s + 2] of the old one, as long as [s + 2] is a slot of the horizon. *)
Theorem availability_offset_shift (off : Z) (st en : time) (s : nat) :
  Z.of_nat s + 2 < HORIZON_SLOTS ->
  local_window_to_utc_slots (off + 1) st en !! s
  = local_window_to_utc_slots off st en !! (s + 2)%nat.
Proof.
  intros Hs.
  assert (Hiff : local_window_to_utc_slots (off + 1) st en !! s = Some true <->
                 local_window_to_utc_slots off st en !! (s + 2)%nat = Some true).
  { rewrite !local_window_lookup, window_start_slot_shift,
      window_end_slot_shift. lia. }
  destruct (local_window_to_utc_slots (off + 1) st en !! s) as [[|]|] eqn:E1;
    destruct (local_window_to_utc_slots off st en !! (s + 2)%nat)
      as [[|]|] eqn:E2; try done;
    try (destruct Hiff as [Ha Hb];
         first [by specialize (Ha eq_refl) | by specialize (Hb eq_refl)]);
    try (apply lookup_ge_None in E1; rewrite local_window_length in E1; lia);
    try (apply lookup_ge_None in E2; rewrite local_window_length in E2; lia).
Qed.

Lemma availability_offset_shift_witness :
  Z.of_nat 16 + 2 < HORIZON_SLOTS /\
  local_window_to_utc_slots (0 + 1) (Time 9 0) (Time 17 0) !! 16%nat
  = local_window_to_utc_slots 0 (Time 9 0) (Time 17 0) !! (16 + 2)%nat.
Proof.
  assert (H : Z.of_nat 16 + 2 < HORIZON_SLOTS) by reflexivity.
  split; [exact H|].
  exact (availability_offset_shift 0 (Time 9 0) (Time 17 0) 16 H).
Defined.

(** ** The local hour and the penalty in whole minutes *)

Lemma slot_local_minutes_range t off : 0 <= slot_local_minutes t off < 24 * 60.
Proof. unfold slot_local_minutes. by apply Z.mod_pos_bound. Qed.


Lemma slot_to_local_hour_minutes t off :
  (slot_to_local_hour t off == slot_local_minutes t off # 60)%Q.
Proof. apply slot_to_local_hour_midpoint. Qed.

(** X4. The local hour of a slot lies in [[0, 24)]; two slots later is the
    same local hour as one more hour of offset, and the local hour does not
    change when the offset grows by 24 hours or the slot by a whole day. *)
Theorem slot_to_local_hour_laws (s off : Z) :
  (0 <= slot_to_local_hour s off)%Q /\
  (slot_to_local_hour s off < 24)%Q /\
  slot_to_local_hour (s + 2) off = slot_to_local_hour s (off + 1) /\
  slot_to_local_hour s (off + 24) = slot_to_local_hour s off /\
  slot_to_local_hour (s + HORIZON_SLOTS) off = slot_to_local_hour s off.
Proof.
  pose proof (slot_local_minutes_range s off) as Hr.
  split; [|split; [|split; [|split]]].
  - rewrite slot_to_local_hour_minutes. unfold Qle. simpl. lia.
  - rewrite slot_to_local_hour_minutes. unfold Qlt. simpl. lia.
  - unfold slot_to_local_hour.
    assert (slot_local_minutes (s + 2) off = slot_local_minutes s (off + 1))
      as ->; [|done].
    unfold slot_local_minutes, SLOT_MIN. f_equal. lia.
  - unfold slot_to_local_hour.
    assert (slot_local_minutes s (off + 24) = slot_local_minutes s off)
      as ->; [|done].
    unfold slot_local_minutes, SLOT_MIN.
    replace (s * 30 + 30 / 2 + (off + 24) * 60)
      with (s * 30 + 30 / 2 + off * 60 + 1 * (24 * 60)) by lia.
    apply Z_mod_plus_full.
  - unfold slot_to_local_hour.
    assert (slot_local_minutes (s + HORIZON_SLOTS) off
            = slot_local_minutes s off) as ->; [|done].
    unfold slot_local_minutes, SLOT_MIN. rewrite HORIZON_SLOTS_eq.
    replace ((s + 48) * 30 + 30 / 2 + off * 60)
      with (s * 30 + 30 / 2 + off * 60 + 1 * (24 * 60)) by lia.
    apply Z_mod_plus_full.
Qed.





(** ** The slot of a clock time *)

(** X6. For a valid clock time and the slot length [SLOT_MIN],
    [time_to_slot_index] is a slot of the horizon, that slot contains the
    time, it is the first slot of a window starting at this time at UTC+0,
    and the start time of the slot is mapped back to the slot. *)
Theorem time_to_slot_index_slot (t : time) (epoch_date : Z) :
  valid_time t ->
  let i := time_to_slot_index t epoch_date SLOT_MIN in
  0 <= i < HORIZON_SLOTS /\
  i * SLOT_MIN <= local_minutes_of t < (i + 1) * SLOT_MIN /\
  i = window_start_slot 0 t /\
  time_to_slot_index (time_of (EPOCH_DATE + i * SLOT_MIN)) epoch_date SLOT_MIN
  = i.
Proof.
  intros [Hh Hm]. unfold time_to_slot_index, local_minutes_of, SLOT_MIN.
  set (x := hour t * 60 + minute t). simpl.
  pose proof (Z.div_mod x 30 ltac:(done)) as Hdm.
  pose proof (Z.mod_pos_bound x 30 ltac:(done)) as Hmod.
  assert (0 <= x / 30 < 48) as Hi by (unfold x in *; lia).
  rewrite HORIZON_SLOTS_eq. split; [done|]. split; [lia|]. split.
  - unfold window_start_slot, floor_div, SLOT_MIN. fold x. f_equal. lia.
  - unfold time_of, EPOCH_DATE. simpl. rewrite Z.add_0_l.
    rewrite (Z.mod_small (x / 30 * 30) (24 * 60)) by lia.
    pose proof (Z.div_mod (x / 30 * 30) 60 ltac:(done)) as Hdm2.
    replace (x / 30 * 30 / 60 * 60 + (x / 30 * 30) mod 60)
      with (x / 30 * 30) by lia.
    by rewrite Z.div_mul.
Qed.

Lemma time_to_slot_index_slot_witness :
  valid_time (Time 8 30) /\
  let i := time_to_slot_index (Time 8 30) 0 SLOT_MIN in
  0 <= i < HORIZON_SLOTS /\
  i * SLOT_MIN <= local_minutes_of (Time 8 30) < (i + 1) * SLOT_MIN /\
  i = window_start_slot 0 (Time 8 30) /\
  time_to_slot_index (time_of (EPOCH_DATE + i * SLOT_MIN)) 0 SLOT_MIN = i.
Proof.
  assert (H : valid_time (Time 8 30)) by (unfold valid_time; simpl; lia).
  split; [exact H|].
  exact (time_to_slot_index_slot (Time 8 30) 0 H).
Defined.

(** ** Meetings inside everybody's office hours *)









(** ** Further properties of candidate generation *)

Lemma increasing_cons x l :
  increasing (x :: l) <-> (forall y, y ∈ l -> x < y) /\ increasing l.
Proof.
  split.
  - intros H. split.
    + intros y (j&Hj)%list_elem_of_lookup.
      apply (H 0%nat (S j) x y); [lia|done..].
    + intros i j a b Hij Ha Hb. apply (H (S i) (S j) a b); [lia|done..].
  - intros [Hx Hl] i j a b Hij Ha Hb. destruct j as [|j]; [lia|].
    simpl in Hb. destruct i as [|i].
    + simpl in Ha. injection Ha as <-. apply Hx.
      apply list_elem_of_lookup. by exists j.
    + simpl in Ha. apply (Hl i j a b); [lia|done..].
Qed.

Lemma increasing_seqZ_nat (n : nat) : forall m, increasing (seqZ m (Z.of_nat n)).
Proof.
  induction n as [|n IH]; intros m.
  - intros i j a b _ Ha. by rewrite lookup_seqZ in Ha by lia.
  - rewrite seqZ_cons by lia. apply increasing_cons. split.
    + intros y Hy%elem_of_seqZ. lia.
    + replace (Z.pred (Z.of_nat (S n))) with (Z.of_nat n) by lia.
      replace (Z.succ m) with (m + 1) by lia. apply IH.
Qed.

Lemma increasing_range a b : increasing (range a b).
Proof.
  unfold range. destruct (decide (0 <= b - a)) as [H|H].
  - rewrite <- (Z2Nat.id (b - a)) by done. apply increasing_seqZ_nat.
  - unfold seqZ. replace (Z.to_nat (b - a)) with 0%nat by lia.
    intros i j x y _ Hx. done.
Qed.

Lemma increasing_filter (P : Z -> Prop) `{!forall x, Decision (P x)} l :
  increasing l -> increasing (filter P l).
Proof.
  induction l as [|x l IH]; [done|].
  intros [Hx Hl]%increasing_cons. rewrite filter_cons.
  destruct (decide (P x)); [|by apply IH].
  apply increasing_cons. split; [|by apply IH].
  intros y [_ Hy]%list_elem_of_filter. by apply Hx.
Qed.

Lemma candidates_of_sorted pa m cands :
  candidates_of pa m = Some cands -> increasing cands /\ NoDup cands.
Proof.
  unfold candidates_of. intros H%scan_starts_Some. subst cands. simpl.
  split.
  - apply increasing_filter, increasing_range.
  - apply NoDup_filter. unfold range. apply NoDup_seqZ.
Qed.

(** X8. The candidate list of a meeting is in strictly increasing order
    and has no repeated start. *)
Theorem candidates_increasing (pa : gmap string (list bool)) (m : meeting)
    (cands : list Z) :
  candidates_of pa m = Some cands -> increasing cands /\ NoDup cands.
Proof. apply candidates_of_sorted. Qed.

Lemma candidates_increasing_witness :
  candidates_of (build_participant_avail far_east) short_call
    = Some [0; 1; 2; 3; 4; 5] /\
  increasing [0; 1; 2; 3; 4; 5] /\ NoDup [0; 1; 2; 3; 4; 5].
Proof.
  assert (H : candidates_of (build_participant_avail far_east) short_call
              = Some [0; 1; 2; 3; 4; 5]) by reflexivity.
  split; [exact H|].
  exact (candidates_increasing _ short_call _ H).
Defined.

Lemma duration_slots_nonpos dur_min :
  dur_min <= 0 -> duration_slots dur_min <= 0.
Proof.
  intros H. unfold duration_slots.
  destruct (decide (0 < ceil_div dur_min SLOT_MIN)) as [Hpos|]; [|lia].
  apply lt_ceil_div in Hpos; [|done]. lia.
Qed.

Lemma duration_slots_mono d1 d2 :
  d1 <= d2 -> duration_slots d1 <= duration_slots d2.
Proof.
  intros H. unfold duration_slots.
  pose proof (ceil_div_spec d1 SLOT_MIN ltac:(done)).
  pose proof (ceil_div_spec d2 SLOT_MIN ltac:(done)).
  unfold SLOT_MIN in *. lia.
Qed.

Lemma required_free_no_slots pa required s dur_slots :
  dur_slots <= 0 -> required_free pa required s dur_slots = Some true.
Proof.
  intros H. induction required as [|p ps IH]; simpl; [done|].
  by rewrite range_nil by lia.
Qed.

Lemma scan_starts_all pa required dur_slots starts : forall acc,
  (forall s, s ∈ starts -> required_free pa required s dur_slots = Some true) ->
  scan_starts pa required dur_slots starts acc = Some (acc ++ starts).
Proof.
  induction starts as [|s starts IH]; intros acc Hall; simpl.
  - by rewrite app_nil_r.
  - rewrite (Hall s) by left. simpl. rewrite IH.
    + by rewrite <- app_assoc.
    + intros s' Hs'. apply Hall. by right.
Qed.

(** X9. A meeting whose duration is zero or negative is checked against
    nobody's availability: whatever the participant table and the required
    names, known or not, every start from 0 to [HORIZON_SLOTS -
    durationSlots] is a candidate, among them [HORIZON_SLOTS] itself, which
    is no slot of the horizon. *)
Theorem candidates_without_duration (pa : gmap string (list bool))
    (m : meeting) :
  m_dur_min m <= 0 ->
  candidates_of pa m
    = Some (range 0 (HORIZON_SLOTS - duration_slots (m_dur_min m) + 1)) /\
  HORIZON_SLOTS ∈ range 0 (HORIZON_SLOTS - duration_slots (m_dur_min m) + 1).
Proof.
  intros Hd. apply duration_slots_nonpos in Hd. split.
  - unfold candidates_of. simpl. rewrite scan_starts_all; [done|].
    intros s _. by apply required_free_no_slots.
  - apply elem_of_range. rewrite HORIZON_SLOTS_eq. lia.
Qed.

Lemma candidates_without_duration_witness :
  m_dur_min (Meeting "Ping" "Ops" 0 ["Nobody"]) <= 0 /\
  candidates_of ∅ (Meeting "Ping" "Ops" 0 ["Nobody"])
    = Some (range 0 (HORIZON_SLOTS - duration_slots 0 + 1)) /\
  HORIZON_SLOTS ∈ range 0 (HORIZON_SLOTS - duration_slots 0 + 1).
Proof.
  assert (H : m_dur_min (Meeting "Ping" "Ops" 0 ["Nobody"]) <= 0)
    by (simpl; lia).
  split; [exact H|].
  exact (candidates_without_duration ∅ (Meeting "Ping" "Ops" 0 ["Nobody"]) H).
Defined.

(** X10. Requiring more participants or a longer duration can only remove
    candidate starts: if one meeting requires at least the participants of
    another and lasts at least as long, its candidates are among the
    other's. *)
Theorem candidates_antitone (pa : gmap string (list bool))
    (m1 m2 : meeting) (c1 c2 : list Z) :
  candidates_of pa m1 = Some c1 -> candidates_of pa m2 = Some c2 ->
  (forall p, p ∈ m_required m1 -> p ∈ m_required m2) ->
  m_dur_min m1 <= m_dur_min m2 ->
  forall s, s ∈ c2 -> s ∈ c1.
Proof.
  intros H1 H2 Hreq Hdur s.
  rewrite (candidates_of_elem pa m1 c1 s H1), (candidates_of_elem pa m2 c2 s H2).
  apply duration_slots_mono in Hdur.
  intros [Hs Hfree]. split; [lia|].
  intros p Hp t Ht. apply Hfree; [by apply Hreq|lia].
Qed.

Lemma candidates_antitone_witness :
  candidates_of (build_participant_avail participants)
    (Meeting "Short" "T" 30 ["Bob"]) = Some (range 16 32) /\
  candidates_of (build_participant_avail participants)
    (Meeting "Long" "T" 60 ["Bob"; "Cara"]) = Some (range 16 31) /\
  (forall p, p ∈ m_required (Meeting "Short" "T" 30 ["Bob"]) ->
             p ∈ m_required (Meeting "Long" "T" 60 ["Bob"; "Cara"])) /\
  m_dur_min (Meeting "Short" "T" 30 ["Bob"])
    <= m_dur_min (Meeting "Long" "T" 60 ["Bob"; "Cara"]) /\
  forall s, s ∈ range 16 31 -> s ∈ range 16 32.
Proof.
  assert (H1 : candidates_of (build_participant_avail participants)
                 (Meeting "Short" "T" 30 ["Bob"]) = Some (range 16 32))
    by reflexivity.
  assert (H2 : candidates_of (build_participant_avail participants)
                 (Meeting "Long" "T" 60 ["Bob"; "Cara"]) = Some (range 16 31))
    by reflexivity.
  assert (H3 : forall p, p ∈ m_required (Meeting "Short" "T" 30 ["Bob"]) ->
                 p ∈ m_required (Meeting "Long" "T" 60 ["Bob"; "Cara"])).
  { intros p ->%list_elem_of_singleton. left. }
  assert (H4 : m_dur_min (Meeting "Short" "T" 30 ["Bob"])
               <= m_dur_min (Meeting "Long" "T" 60 ["Bob"; "Cara"]))
    by (simpl; lia).
  repeat (split; [assumption|]).
  exact (candidates_antitone _ _ _ _ _ H1 H2 H3 H4).
Defined.

(** ** Unknown participants and over-long meetings *)

Lemma duration_slots_bounds dur_min :
  0 < dur_min <= 24 * 60 -> 1 <= duration_slots dur_min <= HORIZON_SLOTS.
Proof.
  intros H. unfold duration_slots. rewrite HORIZON_SLOTS_eq.
  pose proof (ceil_div_spec dur_min SLOT_MIN ltac:(done)).
  unfold SLOT_MIN in *. lia.
Qed.

Lemma candidates_of_unknown pa m p rest :
  m_required m = p :: rest -> pa !! p = None ->
  0 < m_dur_min m <= 24 * 60 ->
  candidates_of pa m = None.
Proof.
  intros Hreq Hp Hdur. apply duration_slots_bounds in Hdur.
  unfold candidates_of. rewrite Hreq. cbv zeta.
  rewrite (range_cons 0) by lia. cbn [scan_starts required_free].
  rewrite (range_cons 0) by lia. cbn [slots_free]. by rewrite Hp.
Qed.

Lemma build_candidates_None pa ms m : forall tb,
  m ∈ ms -> candidates_of pa m = None -> build_candidates pa ms tb = None.
Proof.
  induction ms as [|m' ms IH]; intros tb Hm Hnone;
    [by apply elem_of_nil in Hm|].
  simpl. destruct (candidates_of pa m') as [c|] eqn:Hc; simpl; [|done].
  apply elem_of_cons in Hm as [->|Hm]; [congruence|]. by apply IH.
Qed.

(** X11. A meeting of 1 to 1440 minutes whose first required participant is
    in no row of the participant table stops the script with [KeyError]
    during candidate generation: nothing is encoded and the solver is never
    called, whatever the other meetings are. *)
Theorem unknown_participant_raises (ps : list participant)
    (ms : list meeting) (m : meeting) (p : string) (rest : list string) :
  m ∈ ms -> m_required m = p :: rest -> p ∉ p_name <$> ps ->
  0 < m_dur_min m <= 24 * 60 ->
  encode ps ms = None /\ forall solver, run solver ps ms = None.
Proof.
  intros Hm Hreq Hp Hdur.
  assert (encode ps ms = None) as Henc.
  { unfold encode.
    rewrite (build_candidates_None _ ms m _ Hm); [done|].
    apply (candidates_of_unknown _ m p rest Hreq); [|done].
    rewrite participant_avail_last, fmap_None. by apply last_named_None. }
  split; [done|]. intros solver. unfold run. by rewrite Henc.
Qed.

Lemma unknown_participant_raises_witness :
  ghost_call ∈ [short_call; ghost_call] /\
  m_required ghost_call = "Ghost" :: ["Zed"] /\
  ("Ghost" ∉ p_name <$> far_east) /\
  0 < m_dur_min ghost_call <= 24 * 60 /\
  encode far_east [short_call; ghost_call] = None /\
  forall solver, run solver far_east [short_call; ghost_call] = None.
Proof.
  assert (H1 : ghost_call ∈ [short_call; ghost_call]) by (right; left).
  assert (H2 : m_required ghost_call = "Ghost" :: ["Zed"]) by reflexivity.
  assert (H3 : "Ghost" ∉ p_name <$> far_east).
  { intros H. apply list_elem_of_singleton in H. discriminate H. }
  assert (H4 : 0 < m_dur_min ghost_call <= 24 * 60) by (simpl; lia).
  repeat (split; [assumption|]).
  exact (unknown_participant_raises far_east [short_call; ghost_call]
           ghost_call "Ghost" ["Zed"] H1 H2 H3 H4).
Defined.

(** X12. A meeting that lasts more than 1440 minutes has no candidate start
    at all, so the model of any table that contains it is infeasible. *)
Theorem overlong_meeting_infeasible (ps : list participant)
    (ms : list meeting) (e : encoding) (m : meeting) :
  encode ps ms = Some e -> NoDup (m_mid <$> ms) -> m ∈ ms ->
  24 * 60 < m_dur_min m ->
  meeting_candidates (tables e) !! m_mid m = Some [] /\ infeasible (model e).
Proof.
  intros He Hnd Hm Hdur.
  destruct (encode_Some_inv ps ms e He) as (_&_&Htb&_).
  destruct (build_candidates_NoDup _ ms _ _ m Htb Hnd Hm)
    as (cands&Hc&Hmc&_).
  assert (cands = []) as ->.
  { unfold candidates_of in Hc. rewrite range_nil in Hc.
    - simpl in Hc. by injection Hc as <-.
    - assert (HORIZON_SLOTS < duration_slots (m_dur_min m)); [|lia].
      apply lt_ceil_div; [done|]. rewrite HORIZON_SLOTS_eq.
      unfold SLOT_MIN. lia. }
  split; [done|]. by apply (empty_candidates_model ps ms e m).
Qed.

Lemma overlong_meeting_infeasible_witness :
  exists e,
    encode far_east [marathon] = Some e /\
    NoDup (m_mid <$> [marathon]) /\
    marathon ∈ [marathon] /\
    24 * 60 < m_dur_min marathon /\
    meeting_candidates (tables e) !! m_mid marathon = Some [] /\
    infeasible (model e).
Proof.
  assert (Hwf : well_formed far_east [marathon]).
  { apply well_formed_Forall. by apply (bool_decide_unpack _). }
  destruct (encode_is_Some far_east [marathon] Hwf) as [e He].
  exists e.
  assert (H2 : NoDup (m_mid <$> [marathon])) by apply NoDup_singleton.
  assert (H3 : marathon ∈ [marathon]) by left.
  assert (H4 : 24 * 60 < m_dur_min marathon) by reflexivity.
  split; [exact He|]. repeat (split; [assumption|]).
  exact (overlong_meeting_infeasible far_east [marathon] e marathon
           He H2 H3 H4).
Defined.

(** ** Shape of the model *)

Lemma encode_objective ps ms e :
  encode ps ms = Some e ->
  objective (model e) = objective_terms (start_vars e) (start_cost e).
Proof.
  unfold encode. intros H.
  destruct (build_candidates _ ms _) as [tb|]; simpl in H; [|done].
  destruct (build_start_vars tb ms _) as [[n sv]|]; simpl in H; [|done].
  destruct (mapM _ ms) as [c1|]; simpl in H; [|done].
  destruct (no_double_booking tb sv ps ms) as [c2|]; simpl in H; [|done].
  destruct (build_start_cost _ tb ms ∅) as [sc|]; simpl in H; [|done].
  injection H as <-. done.
Qed.

Lemma new_start_vars_count mid cands : forall st,
  fst (new_start_vars mid cands st) = (fst st + length cands)%nat.
Proof.
  unfold new_start_vars.
  induction cands as [|s cands IH]; intros st; simpl; [lia|].
  rewrite IH. simpl. lia.
Qed.

Lemma build_start_vars_count tb ms : forall st st',
  build_start_vars tb ms st = Some st' ->
  fst st'
  = (fst st
     + sum_list_with
         (fun m => length (default [] (meeting_candidates tb !! m_mid m)))
         ms)%nat.
Proof.
  induction ms as [|m ms IH]; intros st st'; simpl.
  - intros [= <-]. lia.
  - destruct (meeting_candidates tb !! m_mid m) as [cands|]; simpl; [|done].
    intros H%IH. rewrite H, new_start_vars_count. lia.
Qed.

Lemma exactly_one_vars ps ms e c v :
  encode ps ms = Some e -> c ∈ exactly_one e -> v ∈ constraint_vars c ->
  exists m s cands,
    m ∈ ms /\ meeting_candidates (tables e) !! m_mid m = Some cands /\
    s ∈ cands /\ start_vars e !! (m_mid m, s) = Some v.
Proof.
  intros He Hc Hv.
  destruct (encode_Some_inv ps ms e He) as (_&_&_&_&Hc1&_).
  apply (mapM_Some_elem _ _ _ Hc1) in Hc as (m&Hm&Hcm).
  unfold exactly_one_constraint in Hcm.
  destruct (meeting_candidates (tables e) !! m_mid m) as [cands|] eqn:Hmc;
    simpl in Hcm; [|done].
  destruct (mapM _ cands) as [vars|] eqn:Hvars; simpl in Hcm; [|done].
  assert (v ∈ vars) as Hin.
  { destruct vars; injection Hcm as <-; simpl in Hv; done. }
  apply (mapM_Some_elem _ _ _ Hvars) in Hin as (s&?&?).
  by exists m, s, cands.
Qed.

(** X13. The model is closed: it has one variable per candidate of every
    row of the meeting table, and every variable that occurs in
    [start_vars], in a constraint or in the objective is one of them. *)
Theorem model_variables_declared (ps : list participant) (ms : list meeting)
    (e : encoding) :
  encode ps ms = Some e ->
  num_vars (model e)
  = sum_list_with
      (fun m => length (default [] (meeting_candidates (tables e) !! m_mid m)))
      ms /\
  (forall key v, start_vars e !! key = Some v ->
                 (v < num_vars (model e))%nat) /\
  (forall c v, c ∈ constraints (model e) -> v ∈ constraint_vars c ->
               (v < num_vars (model e))%nat) /\
  (forall v c, (v, c) ∈ objective (model e) -> (v < num_vars (model e))%nat).
Proof.
  intros He.
  destruct (encode_Some_inv ps ms e He) as (_&_&_&Hsv&_&Hc2&_&Hcs).
  destruct (encode_vars_ok ps ms e He) as [Hlt _]. simpl in Hlt.
  split; [|split; [exact Hlt|split]].
  - apply build_start_vars_count in Hsv. simpl in Hsv. exact Hsv.
  - intros c v Hc Hv. rewrite Hcs in Hc.
    apply elem_of_app in Hc as [Hc|Hc].
    + destruct (exactly_one_vars ps ms e c v He Hc Hv) as (m&s&?&_&_&_&Hk).
      by apply (Hlt _ _ Hk).
    + apply (double_booking_elem _ _ ps ms _ Hc2) in Hc
        as (p&t&occ&_&_&Hocc&_&->).
      simpl in Hv.
      apply (occupying_elem _ _ ms p t occ Hocc) in Hv
        as (m&?&?&s&_&_&_&_&_&_&Hk).
      by apply (Hlt _ _ Hk).
  - intros v c. rewrite (encode_objective ps ms e He).
    unfold objective_terms. rewrite list_elem_of_omap.
    intros ([key v']&Hin%elem_of_map_to_list&Hf). simpl in Hf.
    case_bool_decide; [|done]. injection Hf as <- _.
    by apply (Hlt _ _ Hin).
Qed.

Lemma model_variables_declared_witness :
  exists e,
    encode participants meetings = Some e /\
    num_vars (model e)
    = sum_list_with
        (fun m =>
           length (default [] (meeting_candidates (tables e) !! m_mid m)))
        meetings /\
    (forall key v, start_vars e !! key = Some v ->
                   (v < num_vars (model e))%nat) /\
    (forall c v, c ∈ constraints (model e) -> v ∈ constraint_vars c ->
                 (v < num_vars (model e))%nat) /\
    (forall v c, (v, c) ∈ objective (model e) ->
                 (v < num_vars (model e))%nat).
Proof.
  destruct (encode_is_Some participants meetings well_formed_example)
    as [e He].
  exists e. split; [exact He|].
  exact (model_variables_declared participants meetings e He).
Defined.

Lemma exactly_one_BoolOr ps ms e lits :
  encode ps ms = Some e -> BoolOr lits ∈ exactly_one e ->
  lits = [] /\
  exists m, m ∈ ms /\ meeting_candidates (tables e) !! m_mid m = Some [].
Proof.
  intros He Hc.
  destruct (encode_Some_inv ps ms e He) as (_&_&_&_&Hc1&_).
  apply (mapM_Some_elem _ _ _ Hc1) in Hc as (m&Hm&Hcm).
  unfold exactly_one_constraint in Hcm.
  destruct (meeting_candidates (tables e) !! m_mid m) as [cands|] eqn:Hmc;
    simpl in Hcm; [|done].
  destruct (mapM _ cands) as [vars|] eqn:Hvars; simpl in Hcm; [|done].
  destruct vars as [|v vars]; [|done]. injection Hcm as <-.
  split; [done|]. exists m. split; [done|].
  apply mapM_Some_1, Forall2_length in Hvars.
  destruct cands; [done|discriminate Hvars].
Qed.

(** X14. The model has exactly one exactly-one constraint per row of the
    meeting table; its only disjunctions are empty ones, and an empty
    disjunction is present if and only if some meeting has no candidate
    start. *)
Theorem empty_clause_iff (ps : list participant) (ms : list meeting)
    (e : encoding) :
  encode ps ms = Some e ->
  length (exactly_one e) = length ms /\
  (forall lits, BoolOr lits ∈ constraints (model e) -> lits = []) /\
  (BoolOr [] ∈ constraints (model e) <->
   exists m, m ∈ ms /\ meeting_candidates (tables e) !! m_mid m = Some []).
Proof.
  intros He.
  destruct (encode_Some_inv ps ms e He) as (_&_&_&_&Hc1&Hc2&_&Hcs).
  assert (Hor : forall lits, BoolOr lits ∈ constraints (model e) ->
                             BoolOr lits ∈ exactly_one e).
  { intros lits. rewrite Hcs, elem_of_app. intros [?|Hin]; [done|].
    apply (double_booking_elem _ _ ps ms _ Hc2) in Hin
      as (?&?&?&_&_&_&_&?). done. }
  split; [|split].
  - apply mapM_Some_1, Forall2_length in Hc1. by rewrite Hc1.
  - intros lits Hin%Hor. by apply (exactly_one_BoolOr ps ms e) in Hin as [? _].
  - split.
    + intros Hin%Hor. by apply (exactly_one_BoolOr ps ms e) in Hin as [_ ?].
    + intros (m&Hm&Hmc). by apply (empty_candidates_model ps ms e m).
Qed.

Lemma empty_clause_iff_witness :
  exists e,
    encode far_east [long_review] = Some e /\
    length (exactly_one e) = length [long_review] /\
    (forall lits, BoolOr lits ∈ constraints (model e) -> lits = []) /\
    (BoolOr [] ∈ constraints (model e) <->
     exists m, m ∈ [long_review] /\
               meeting_candidates (tables e) !! m_mid m = Some []).
Proof.
  assert (Hwf : well_formed far_east [long_review]).
  { apply well_formed_Forall. by apply (bool_decide_unpack _). }
  destruct (encode_is_Some far_east [long_review] Hwf) as [e He].
  exists e. split; [exact He|].
  exact (empty_clause_iff far_east [long_review] e He).
Defined.

Lemma start_cost_of_var ps ms e key v :
  encode ps ms = Some e -> start_vars e !! key = Some v ->
  exists c, start_cost e !! key = Some c /\ 0 <= c.
Proof.
  intros He Hv. destruct key as [mid s].
  destruct (encode_Some_inv ps ms e He) as (_&_&_&_&_&_&Hsc&_).
  destruct (encode_var_key ps ms e He mid s v Hv) as (m&cands&Hm&<-&Hmc&Hs).
  destruct (build_start_cost_lookup _ _ ms _ _ (m_mid m, s) Hsc)
    as [(m'&dur&?&?&_&_&_&_&_&Hk)|[Hnot _]].
  - eexists. split; [exact Hk|]. apply occupied_penalty_nonneg.
  - by destruct (Hnot m cands s Hm Hmc Hs).
Qed.

(** X15. Every variable has a cost in [start_cost] (the default of
    [start_cost.get] is never used), costs are non-negative, and the
    objective has one term per variable of positive cost, with that cost as
    coefficient, and no term for a variable of cost 0. *)
Theorem objective_terms_exact (ps : list participant) (ms : list meeting)
    (e : encoding) :
  encode ps ms = Some e ->
  (forall key v, start_vars e !! key = Some v ->
     exists c, start_cost e !! key = Some c /\ 0 <= c) /\
  (forall v c,
     (v, c) ∈ objective (model e) <->
     exists key,
       start_vars e !! key = Some v /\ start_cost e !! key = Some c /\ 0 < c).
Proof.
  intros He. split; [intros key v; by apply (start_cost_of_var ps ms e)|].
  intros v c. rewrite (encode_objective ps ms e He).
  unfold objective_terms. rewrite list_elem_of_omap. split.
  - intros ([key v']&Hin%elem_of_map_to_list&Hf). simpl in Hf.
    case_bool_decide as Hnz; [|done]. injection Hf as <- <-.
    destruct (start_cost_of_var ps ms e key v' He Hin) as (c&Hc&Hpos).
    exists key. rewrite Hc in *. simpl in *. split; [done|]. split; [done|lia].
  - intros (key&Hv&Hc&Hpos). exists (key, v).
    split; [by apply elem_of_map_to_list|]. simpl. rewrite Hc. simpl.
    rewrite bool_decide_eq_true_2 by lia. done.
Qed.

Lemma objective_terms_exact_witness :
  exists e,
    encode participants meetings = Some e /\
    (forall key v, start_vars e !! key = Some v ->
       exists c, start_cost e !! key = Some c /\ 0 <= c) /\
    (forall v c,
       (v, c) ∈ objective (model e) <->
       exists key,
         start_vars e !! key = Some v /\ start_cost e !! key = Some c /\
         0 < c).
Proof.
  destruct (encode_is_Some participants meetings well_formed_example)
    as [e He].
  exists e. split; [exact He|].
  exact (objective_terms_exact participants meetings e He).
Defined.

(** ** Satisfying assignments and the decoder *)

Lemma model_sat_forallb value m :
  forallb (constraint_holds value) (constraints m) = true -> model_sat value m.
Proof.
  intros H. apply Forall_forall. intros c Hc%list_elem_of_In.
  by apply (proj1 (forallb_forall _ _) H).
Qed.

Lemma sum_vars_pos_elem value vars :
  1 <= sum_vars value vars -> exists v, v ∈ vars /\ value v = true.
Proof.
  induction vars as [|w vars IH]; simpl; [lia|].
  destruct (value w) eqn:Hw.
  - intros _. exists w. split; [left|done].
  - simpl. intros H. destruct (IH ltac:(lia)) as (v&?&?).
    exists v. split; [by right|done].
Qed.

Lemma meeting_unique_start ps ms e value m cands :
  encode ps ms = Some e -> model_sat value (model e) -> m ∈ ms ->
  meeting_candidates (tables e) !! m_mid m = Some cands ->
  exists s v,
    s ∈ cands /\ start_vars e !! (m_mid m, s) = Some v /\ value v = true /\
    forall s' v',
      s' ∈ cands -> start_vars e !! (m_mid m, s') = Some v' ->
      value v' = true -> s' = s.
Proof.
  intros He Hsat Hm Hmc.
  destruct (encode_Some_inv ps ms e He) as (_&_&_&_&Hc1&_&_&Hcs).
  assert (exists c, exactly_one_constraint (tables e) (start_vars e) m = Some c
                    /\ c ∈ constraints (model e)) as (c&Hcm&Hc).
  { destruct (exactly_one_is_Some _ _ ms m (encode_keys_ready ps ms e He) Hm)
      as [c Hcm].
    exists c. split; [done|]. rewrite Hcs, elem_of_app. left.
    apply (mapM_Some_elem _ _ _ Hc1). by exists m. }
  unfold model_sat in Hsat. eapply Forall_forall in Hsat; [|exact Hc].
  unfold exactly_one_constraint in Hcm. rewrite Hmc in Hcm. simpl in Hcm.
  destruct (mapM _ cands) as [vars|] eqn:Hvars; simpl in Hcm; [|done].
  assert (c = SumEq vars 1 /\ vars <> []) as [-> _].
  { destruct vars; injection Hcm as <-; [done|]. by split. }
  simpl in Hsat. apply Z.eqb_eq in Hsat.
  destruct (sum_vars_pos_elem value vars ltac:(lia)) as (v&Hv&Htrue).
  apply (mapM_Some_elem _ _ _ Hvars) in Hv as (s&Hs&Hsv).
  exists s, v. repeat split; [done..|].
  intros s' v' Hs' Hsv' Htrue'.
  destruct (decide (s' = s)) as [|Hne]; [done|exfalso].
  assert (v' <> v) as Hvne.
  { intros ->.
    pose proof (proj2 (encode_vars_ok ps ms e He) _ _ _ Hsv' Hsv). congruence. }
  assert (v ∈ vars) by (apply (mapM_Some_elem _ _ _ Hvars); by exists s).
  assert (v' ∈ vars) by (apply (mapM_Some_elem _ _ _ Hvars); by exists s').
  pose proof (sum_vars_two value vars v' v ltac:(done) ltac:(done) Hvne
                Htrue' Htrue). lia.
Qed.

(** X16. In an assignment that satisfies the model, every meeting of the
    table has exactly one candidate start whose variable is true. *)
Theorem each_meeting_starts_once (ps : list participant) (ms : list meeting)
    (e : encoding) (value : nat -> bool) (m : meeting) (cands : list Z) :
  encode ps ms = Some e -> model_sat value (model e) -> m ∈ ms ->
  meeting_candidates (tables e) !! m_mid m = Some cands ->
  exists s v,
    s ∈ cands /\ start_vars e !! (m_mid m, s) = Some v /\ value v = true /\
    forall s' v',
      s' ∈ cands -> start_vars e !! (m_mid m, s') = Some v' ->
      value v' = true -> s' = s.
Proof. apply meeting_unique_start. Qed.

Lemma example_model_sat e :
  encode participants meetings = Some e ->
  model_sat (snd (example_solver (model e))) (model e).
Proof.
  intros He. apply model_sat_forallb.
  destruct example_solver_sat as (e'&He'&Hsat).
  rewrite He in He'. by injection He' as <-.
Qed.

Lemma each_meeting_starts_once_witness :
  exists e cands,
    encode participants meetings = Some e /\
    model_sat (snd (example_solver (model e))) (model e) /\
    Meeting "Mktg.Sync" "Marketing" 60 ["Alice"; "Bob"; "Eve"] ∈ meetings /\
    meeting_candidates (tables e) !! "Mktg.Sync" = Some cands /\
    exists s v,
      s ∈ cands /\ start_vars e !! ("Mktg.Sync", s) = Some v /\
      snd (example_solver (model e)) v = true /\
      forall s' v',
        s' ∈ cands -> start_vars e !! ("Mktg.Sync", s') = Some v' ->
        snd (example_solver (model e)) v' = true -> s' = s.
Proof.
  destruct (encode_is_Some participants meetings well_formed_example)
    as [e He].
  assert (Hm : Meeting "Mktg.Sync" "Marketing" 60 ["Alice"; "Bob"; "Eve"]
               ∈ meetings) by left.
  destruct (encode_keys_ready participants meetings e He _ Hm)
    as (_&cands&Hmc&_).
  pose proof (example_model_sat e He) as Hsat.
  exists e, cands. split; [exact He|]. split; [exact Hsat|].
  split; [exact Hm|]. split; [exact Hmc|].
  exact (each_meeting_starts_once participants meetings e _ _ cands
           He Hsat Hm Hmc).
Defined.

Lemma find_chosen_None value sv mid cands :
  find_chosen value sv mid cands = Some None ->
  forall s v, s ∈ cands -> sv !! (mid, s) = Some v -> value v = false.
Proof.
  induction cands as [|s0 cands IH]; simpl.
  - intros _ s v Hs. by apply elem_of_nil in Hs.
  - destruct (sv !! (mid, s0)) as [v0|] eqn:Hv0; simpl; [|done].
    case_bool_decide as Hb; [done|]. intros Hrec s v Hs Hv.
    apply elem_of_cons in Hs as [->|Hs]; [|by apply (IH Hrec s v)].
    rewrite Hv0 in Hv. injection Hv as <-.
    destruct (value v0); [|done]. by destruct Hb.
Qed.

Lemma find_chosen_least value sv mid cands s :
  increasing cands ->
  find_chosen value sv mid cands = Some (Some s) ->
  forall s' v', s' ∈ cands -> sv !! (mid, s') = Some v' ->
                value v' = true -> s <= s'.
Proof.
  induction cands as [|s0 cands IH]; simpl; [done|].
  intros [Hlt Hinc]%increasing_cons.
  destruct (sv !! (mid, s0)) as [v0|] eqn:Hv0; simpl; [|done].
  case_bool_decide as Hb.
  - intros [= <-] s' v' [->|Hs']%elem_of_cons _ _; [lia|].
    specialize (Hlt s' Hs'). lia.
  - intros Hrec s' v' [->|Hs']%elem_of_cons Hv' Htrue.
    + rewrite Hv0 in Hv'. injection Hv' as <-. rewrite Htrue in Hb.
      by destruct Hb.
    + by apply (IH Hinc Hrec s' v').
Qed.

(** X17. The decoder's search for the start of a meeting never raises; it
    returns the least candidate whose variable is true, also when the
    assignment sets several of them, and nothing exactly when no variable
    of the meeting is true. *)
Theorem find_chosen_least_true (ps : list participant) (ms : list meeting)
    (e : encoding) (value : nat -> bool) (m : meeting) (cands : list Z) :
  encode ps ms = Some e -> m ∈ ms ->
  meeting_candidates (tables e) !! m_mid m = Some cands ->
  exists chosen,
    find_chosen value (start_vars e) (m_mid m) cands = Some chosen /\
    match chosen with
    | Some s =>
        s ∈ cands /\
        (exists v, start_vars e !! (m_mid m, s) = Some v /\ value v = true) /\
        forall s' v',
          s' ∈ cands -> start_vars e !! (m_mid m, s') = Some v' ->
          value v' = true -> s <= s'
    | None =>
        forall s v,
          s ∈ cands -> start_vars e !! (m_mid m, s) = Some v ->
          value v = false
    end.
Proof.
  intros He Hm Hmc.
  destruct (encode_keys_ready ps ms e He m Hm) as (_&cands'&Hmc'&Hk).
  rewrite Hmc in Hmc'. injection Hmc' as <-.
  destruct (find_chosen_is_Some value (start_vars e) (m_mid m) cands Hk)
    as [chosen Hch].
  exists chosen. split; [done|]. destruct chosen as [s|].
  - destruct (find_chosen_Some _ _ _ _ _ Hch) as [Hs Hv].
    split; [done|]. split; [done|].
    apply (find_chosen_least value (start_vars e) (m_mid m) cands s); [|done].
    destruct (encode_table_entry ps ms e He _ _ Hmc) as (m'&_&_&Hc&_).
    by destruct (candidates_of_sorted _ m' cands Hc).
  - by apply find_chosen_None.
Qed.

Lemma find_chosen_least_true_witness :
  exists e cands,
    encode participants meetings = Some e /\
    Meeting "Mktg.Sync" "Marketing" 60 ["Alice"; "Bob"; "Eve"] ∈ meetings /\
    meeting_candidates (tables e) !! "Mktg.Sync" = Some cands /\
    exists chosen,
      find_chosen (fun _ => true) (start_vars e) "Mktg.Sync" cands
        = Some chosen /\
      match chosen with
      | Some s =>
          s ∈ cands /\
          (exists v, start_vars e !! ("Mktg.Sync", s) = Some v /\
                     (fun _ : nat => true) v = true) /\
          forall s' v',
            s' ∈ cands -> start_vars e !! ("Mktg.Sync", s') = Some v' ->
            (fun _ : nat => true) v' = true -> s <= s'
      | None =>
          forall s v,
            s ∈ cands -> start_vars e !! ("Mktg.Sync", s) = Some v ->
            (fun _ : nat => true) v = false
      end.
Proof.
  destruct (encode_is_Some participants meetings well_formed_example)
    as [e He].
  assert (Hm : Meeting "Mktg.Sync" "Marketing" 60 ["Alice"; "Bob"; "Eve"]
               ∈ meetings) by left.
  destruct (encode_keys_ready participants meetings e He _ Hm)
    as (_&cands&Hmc&_).
  exists e, cands. split; [exact He|]. split; [exact Hm|].
  split; [exact Hmc|].
  exact (find_chosen_least_true participants meetings e (fun _ => true) _
           cands He Hm Hmc).
Defined.

(** ** The table of a successful run *)

Lemma Forall2_impl_elem {A B} (P Q : A -> B -> Prop) (l : list A)
    (k : list B) :
  Forall2 P l k -> (forall x y, x ∈ l -> P x y -> Q x y) -> Forall2 Q l k.
Proof.
  induction 1 as [|x y l k Hxy _ IH]; intros Himp; constructor.
  - apply Himp; [left|done].
  - apply IH. intros x' y' Hx'. apply Himp. by right.
Qed.

Lemma local_times_names offs bounds required lt :
  mapM (local_time_of offs bounds) required = Some lt ->
  fst <$> lt = required.
Proof.
  intros H%mapM_Some_1. induction H as [|p y req lt Hy _ IH]; [done|].
  simpl. f_equal; [|exact IH].
  unfold local_time_of in Hy. destruct bounds as [[a b]|].
  - destruct (offs !! p); simpl in Hy; [|done]. by injection Hy as <-.
  - by injection Hy as <-.
Qed.

Lemma decode_meeting_row e value m r :
  decode_meeting e value m = Some r ->
  exists cands chosen,
    meeting_candidates (tables e) !! m_mid m = Some cands /\
    find_chosen value (start_vars e) (m_mid m) cands = Some chosen /\
    Meeting_ r = m_mid m /\ Team r = m_team m /\
    Attendees r = m_required m /\ fst <$> LocalTimes r = m_required m /\
    match chosen with
    | Some s =>
        exists dur c,
          meeting_duration_slots (tables e) !! m_mid m = Some dur /\
          start_cost e !! (m_mid m, s) = Some c /\
          StartUTC r
            = Some (strftime_HM (time_of (EPOCH_DATE + s * SLOT_MIN))) /\
          EndUTC r
            = Some (strftime_HM
                      (time_of (EPOCH_DATE + s * SLOT_MIN + dur * SLOT_MIN)))
          /\ Penalty r = Some c
    | None => StartUTC r = None /\ EndUTC r = None /\ Penalty r = None
    end.
Proof.
  unfold decode_meeting. intros H.
  destruct (meeting_candidates (tables e) !! m_mid m) as [cands|] eqn:Hc;
    simpl in H; [|done].
  destruct (find_chosen value (start_vars e) (m_mid m) cands)
    as [chosen|] eqn:Hch; simpl in H; [|done].
  exists cands, chosen. split; [done|]. split; [done|].
  destruct chosen as [s|].
  - destruct (meeting_duration_slots (tables e) !! m_mid m) as [dur|] eqn:Hd;
      simpl in H; [|done].
    destruct (mapM _ (m_required m)) as [lt|] eqn:Hlt; simpl in H; [|done].
    destruct (start_cost e !! (m_mid m, s)) as [c|] eqn:Hsc;
      simpl in H; [|done].
    injection H as <-. simpl.
    repeat (split; [done|]). split; [by apply local_times_names in Hlt|].
    by exists dur, c.
  - simpl in H.
    destruct (mapM _ (m_required m)) as [lt|] eqn:Hlt; simpl in H; [|done].
    injection H as <-. simpl.
    repeat (split; [done|]). split; [by apply local_times_names in Hlt|].
    done.
Qed.

(** X18. When the solver answers [OPTIMAL] or [FEASIBLE] with an assignment
    that satisfies the model, the script prints no failure line and its
    table has exactly one row per row of the meeting table, in the same
    order, with the meeting's id, team and attendees and one local time
    per attendee; every row has a start and an end time, and its penalty
    is the start cost of a start whose variable is true. *)
Theorem successful_run_rows (solver : solver_t) (ps : list participant)
    (ms : list meeting) (e : encoding) :
  well_formed ps ms -> encode ps ms = Some e ->
  fst (solver (model e)) = OPTIMAL \/ fst (solver (model e)) = FEASIBLE ->
  model_sat (snd (solver (model e))) (model e) ->
  exists out,
    run solver ps ms = Some out /\ printed out = None /\
    Forall2
      (fun m r =>
         Meeting_ r = m_mid m /\ Team r = m_team m /\
         Attendees r = m_required m /\ fst <$> LocalTimes r = m_required m /\
         exists s v c,
           start_vars e !! (m_mid m, s) = Some v /\
           snd (solver (model e)) v = true /\
           start_cost e !! (m_mid m, s) = Some c /\
           StartUTC r
             = Some (strftime_HM (time_of (EPOCH_DATE + s * SLOT_MIN))) /\
           is_Some (EndUTC r) /\ Penalty r = Some c)
      ms (rows out).
Proof.
  intros Hwf He Hst Hsat.
  unfold run. rewrite He. simpl. unfold report.
  rewrite bool_decide_eq_true_2 by done.
  destruct (mapM_is_Some_2 (decode_meeting e (snd (solver (model e)))) ms)
    as [rs Hrs].
  { apply Forall_forall. intros m Hm.
    by apply (decode_meeting_is_Some ps ms). }
  rewrite Hrs. simpl. eexists. split; [done|]. split; [done|]. simpl.
  apply mapM_Some_1 in Hrs.
  apply (Forall2_impl_elem _ _ _ _ Hrs). intros m r Hm Hdec.
  apply decode_meeting_row in Hdec
    as (cands&chosen&Hmc&Hch&?&?&?&?&Hrow).
  repeat (split; [done|]).
  destruct (meeting_unique_start ps ms e _ m cands He Hsat Hm Hmc)
    as (s0&v0&Hs0&Hv0&Htrue0&_).
  destruct chosen as [s|].
  - destruct Hrow as (dur&c&_&Hsc&Hstart&Hend&Hpen).
    destruct (find_chosen_Some _ _ _ _ _ Hch) as (_&v&Hv&Htrue).
    exists s, v, c. rewrite Hend. repeat (split; [done|]). done.
  - pose proof (find_chosen_None _ _ _ _ Hch s0 v0 Hs0 Hv0). congruence.
Qed.

Lemma successful_run_rows_witness :
  exists e,
    well_formed participants meetings /\
    encode participants meetings = Some e /\
    (fst (example_solver (model e)) = OPTIMAL \/
     fst (example_solver (model e)) = FEASIBLE) /\
    model_sat (snd (example_solver (model e))) (model e) /\
    exists out,
      run example_solver participants meetings = Some out /\
      printed out = None /\
      Forall2
        (fun m r =>
           Meeting_ r = m_mid m /\ Team r = m_team m /\
           Attendees r = m_required m /\
           fst <$> LocalTimes r = m_required m /\
           exists s v c,
             start_vars e !! (m_mid m, s) = Some v /\
             snd (example_solver (model e)) v = true /\
             start_cost e !! (m_mid m, s) = Some c /\
             StartUTC r
               = Some (strftime_HM (time_of (EPOCH_DATE + s * SLOT_MIN))) /\
             is_Some (EndUTC r) /\ Penalty r = Some c)
        meetings (rows out).
Proof.
  destruct (encode_is_Some participants meetings well_formed_example)
    as [e He].
  pose proof (example_model_sat e He) as Hsat.
  assert (Hst : fst (example_solver (model e)) = OPTIMAL \/
                fst (example_solver (model e)) = FEASIBLE) by (by left).
  exists e. split; [exact well_formed_example|]. split; [exact He|].
  split; [exact Hst|]. split; [exact Hsat|].
  exact (successful_run_rows example_solver participants meetings e
           well_formed_example He Hst Hsat).
Defined.

(** ** The schedule read off a satisfying assignment *)

Lemma chosen_start_exists ps ms e value m cands :
  encode ps ms = Some e -> model_sat value (model e) -> m ∈ ms ->
  meeting_candidates (tables e) !! m_mid m = Some cands ->
  exists s, find_chosen value (start_vars e) (m_mid m) cands = Some (Some s).
Proof.
  intros He Hsat Hm Hmc.
  destruct (encode_keys_ready ps ms e He m Hm) as (_&cands'&Hmc'&Hk).
  rewrite Hmc in Hmc'. injection Hmc' as <-.
  destruct (find_chosen_is_Some value (start_vars e) (m_mid m) cands Hk)
    as [[s|] Hch]; [by exists s|].
  destruct (meeting_unique_start ps ms e _ m cands He Hsat Hm Hmc)
    as (s0&v0&Hs0&Hv0&Htrue0&_).
  pose proof (find_chosen_None _ _ _ _ Hch s0 v0 Hs0 Hv0). congruence.
Qed.

(** Two true variables that cover the same (participant, slot) pair are
    the same variable, with the same key. *)
Lemma covering_true_unique ps ms e value p t key1 key2 v1 v2 :
  well_formed ps ms -> encode ps ms = Some e -> model_sat value (model e) ->
  start_vars e !! key1 = Some v1 -> start_vars e !! key2 = Some v2 ->
  value v1 = true -> value v2 = true ->
  covers ms (tables e) key1 p t -> covers ms (tables e) key2 p t ->
  key1 = key2.
Proof.
  intros Hwf He Hsat Hv1 Hv2 Ht1 Ht2 Hcov1 Hcov2.
  destruct (encode_Some_inv ps ms e He) as (_&_&_&_&_&Hc2&_&Hcs).
  pose proof (encode_keys_ready ps ms e He) as Hk.
  destruct (decide (key1 = key2)) as [|Hne]; [done|exfalso].
  assert (v1 <> v2) as Hvne.
  { intros ->. apply Hne.
    by apply (proj2 (encode_vars_ok ps ms e He) key1 key2 v2). }
  destruct (occupying_is_Some _ _ ms p t Hk) as [occ Hocc].
  assert (v1 ∈ occ) as Hin1.
  { apply (occupying_covers ps ms e p t occ He Hocc). by exists key1. }
  assert (v2 ∈ occ) as Hin2.
  { apply (occupying_covers ps ms e p t occ He Hocc). by exists key2. }
  assert (SumLe occ 1 ∈ constraints (model e)) as Hc.
  { rewrite Hcs, elem_of_app. right.
    apply (double_booking_elem _ _ ps ms _ Hc2). exists p, t, occ.
    destruct Hcov1 as (m&dur&Hm&Hmid&Hp&Hd&Hin).
    split; [by apply (Hwf m)|].
    split; [|split; [done|split; [|done]]].
    - destruct key1 as [mid s]. simpl in *.
      destruct (encode_var_key ps ms e He _ _ _ Hv1) as (_&cands&_&_&Hc&Hs).
      pose proof (encode_candidate_bounds ps ms e He mid cands dur s Hc Hd Hs).
      lia.
    - intros ->. by apply elem_of_nil in Hin1. }
  unfold model_sat in Hsat.
  eapply Forall_forall in Hsat; [|exact Hc]. simpl in Hsat.
  apply Z.leb_le in Hsat.
  pose proof (sum_vars_two value occ v1 v2 Hin1 Hin2 Hvne Ht1 Ht2). lia.
Qed.

(** X19. With unique meeting ids, the start the decoder reads off a
    satisfying assignment exists for every meeting, keeps the meeting
    inside the horizon, and every required participant is available on
    every slot the meeting then occupies. *)
Theorem chosen_start_fits_attendees (ps : list participant)
    (ms : list meeting) (e : encoding) (value : nat -> bool) (m : meeting) :
  well_formed ps ms -> NoDup (m_mid <$> ms) -> encode ps ms = Some e ->
  model_sat value (model e) -> m ∈ ms ->
  exists cands s,
    meeting_candidates (tables e) !! m_mid m = Some cands /\
    find_chosen value (start_vars e) (m_mid m) cands = Some (Some s) /\
    0 <= s /\ s + duration_slots (m_dur_min m) <= HORIZON_SLOTS /\
    forall p, p ∈ m_required m ->
      forall t, s <= t < s + duration_slots (m_dur_min m) ->
        exists avail,
          participant_avail e !! p = Some avail /\
          avail !! Z.to_nat t = Some true.
Proof.
  intros Hwf Hnd He Hsat Hm.
  destruct (encode_Some_inv ps ms e He) as (Hpa&_&Htb&_).
  destruct (build_candidates_NoDup _ ms _ _ m Htb Hnd Hm)
    as (cands&Hc&Hmc&_).
  destruct (chosen_start_exists ps ms e value m cands He Hsat Hm Hmc)
    as [s Hch].
  exists cands, s. split; [done|]. split; [done|].
  destruct (find_chosen_Some _ _ _ _ _ Hch) as [Hs _].
  apply (candidates_of_elem _ m cands s Hc) in Hs as [Hb Hfree].
  split; [lia|]. split; [lia|]. intros p Hp t Ht.
  destruct (Hfree p Hp t Ht) as (avail&Hav&Htrue).
  exists avail. rewrite Hpa. split; [done|].
  by rewrite py_index_nonneg in Htrue by lia.
Qed.

Lemma chosen_start_fits_attendees_witness :
  exists e,
    well_formed participants meetings /\ NoDup (m_mid <$> meetings) /\
    encode participants meetings = Some e /\
    model_sat (snd (example_solver (model e))) (model e) /\
    Meeting "Mktg.Sync" "Marketing" 60 ["Alice"; "Bob"; "Eve"] ∈ meetings /\
    exists cands s,
      meeting_candidates (tables e) !! "Mktg.Sync" = Some cands /\
      find_chosen (snd (example_solver (model e))) (start_vars e)
        "Mktg.Sync" cands = Some (Some s) /\
      0 <= s /\ s + duration_slots 60 <= HORIZON_SLOTS /\
      forall p, p ∈ ["Alice"; "Bob"; "Eve"] ->
        forall t, s <= t < s + duration_slots 60 ->
          exists avail,
            participant_avail e !! p = Some avail /\
            avail !! Z.to_nat t = Some true.
Proof.
  destruct (encode_is_Some participants meetings well_formed_example)
    as [e He].
  pose proof (example_model_sat e He) as Hsat.
  assert (Hm : Meeting "Mktg.Sync" "Marketing" 60 ["Alice"; "Bob"; "Eve"]
               ∈ meetings) by left.
  exists e. split; [exact well_formed_example|]. split; [exact NoDup_example|].
  split; [exact He|]. split; [exact Hsat|]. split; [exact Hm|].
  exact (chosen_start_fits_attendees participants meetings e _ _
           well_formed_example NoDup_example He Hsat Hm).
Defined.

(** X20. With unique meeting ids, the starts the decoder reads off a
    satisfying assignment never book a participant twice: two different
    meetings that require the same participant occupy no common slot. *)
Theorem chosen_starts_do_not_clash (ps : list participant)
    (ms : list meeting) (e : encoding) (value : nat -> bool)
    (m1 m2 : meeting) (cands1 cands2 : list Z) (s1 s2 : Z) (p : string)
    (t : Z) :
  well_formed ps ms -> NoDup (m_mid <$> ms) -> encode ps ms = Some e ->
  model_sat value (model e) ->
  m1 ∈ ms -> m2 ∈ ms -> m1 <> m2 ->
  p ∈ m_required m1 -> p ∈ m_required m2 ->
  meeting_candidates (tables e) !! m_mid m1 = Some cands1 ->
  meeting_candidates (tables e) !! m_mid m2 = Some cands2 ->
  find_chosen value (start_vars e) (m_mid m1) cands1 = Some (Some s1) ->
  find_chosen value (start_vars e) (m_mid m2) cands2 = Some (Some s2) ->
  ~ (s1 <= t < s1 + duration_slots (m_dur_min m1) /\
     s2 <= t < s2 + duration_slots (m_dur_min m2)).
Proof.
  intros Hwf Hnd He Hsat Hm1 Hm2 Hne Hp1 Hp2 Hc1 Hc2 Hch1 Hch2 [Ht1 Ht2].
  destruct (encode_Some_inv ps ms e He) as (_&_&Htb&_).
  destruct (build_candidates_NoDup _ ms _ _ m1 Htb Hnd Hm1) as (?&_&_&Hd1).
  destruct (build_candidates_NoDup _ ms _ _ m2 Htb Hnd Hm2) as (?&_&_&Hd2).
  destruct (find_chosen_Some _ _ _ _ _ Hch1) as (_&v1&Hv1&Htrue1).
  destruct (find_chosen_Some _ _ _ _ _ Hch2) as (_&v2&Hv2&Htrue2).
  assert (Hkey : (m_mid m1, s1) = (m_mid m2, s2)).
  { apply (covering_true_unique ps ms e value p t _ _ v1 v2); try done.
    - by exists m1, (duration_slots (m_dur_min m1)).
    - by exists m2, (duration_slots (m_dur_min m2)). }
  injection Hkey as Hmid _. apply Hne.
  by apply (NoDup_fmap_elem_eq m_mid ms).
Qed.

Lemma chosen_starts_do_not_clash_witness :
  exists e cands1 cands2 s1 s2,
    well_formed participants meetings /\ NoDup (m_mid <$> meetings) /\
    encode participants meetings = Some e /\
    model_sat (snd (example_solver (model e))) (model e) /\
    Meeting "Mktg.Sync" "Marketing" 60 ["Alice"; "Bob"; "Eve"] ∈ meetings /\
    Meeting "Eng.AllHands" "Engineering" 30 ["Bob"; "Cara"; "Dan"] ∈ meetings
    /\
    Meeting "Mktg.Sync" "Marketing" 60 ["Alice"; "Bob"; "Eve"]
      <> Meeting "Eng.AllHands" "Engineering" 30 ["Bob"; "Cara"; "Dan"] /\
    "Bob" ∈ ["Alice"; "Bob"; "Eve"] /\ "Bob" ∈ ["Bob"; "Cara"; "Dan"] /\
    meeting_candidates (tables e) !! "Mktg.Sync" = Some cands1 /\
    meeting_candidates (tables e) !! "Eng.AllHands" = Some cands2 /\
    find_chosen (snd (example_solver (model e))) (start_vars e)
      "Mktg.Sync" cands1 = Some (Some s1) /\
    find_chosen (snd (example_solver (model e))) (start_vars e)
      "Eng.AllHands" cands2 = Some (Some s2) /\
    ~ (s1 <= 26 < s1 + duration_slots 60 /\
       s2 <= 26 < s2 + duration_slots 30).
Proof.
  destruct (encode_is_Some participants meetings well_formed_example)
    as [e He].
  pose proof (example_model_sat e He) as Hsat.
  assert (Hm1 : Meeting "Mktg.Sync" "Marketing" 60 ["Alice"; "Bob"; "Eve"]
                ∈ meetings) by left.
  assert (Hm2 : Meeting "Eng.AllHands" "Engineering" 30
                  ["Bob"; "Cara"; "Dan"] ∈ meetings) by (right; left).
  assert (Hne : Meeting "Mktg.Sync" "Marketing" 60 ["Alice"; "Bob"; "Eve"]
                <> Meeting "Eng.AllHands" "Engineering" 30
                     ["Bob"; "Cara"; "Dan"]) by discriminate.
  assert (Hp1 : "Bob" ∈ ["Alice"; "Bob"; "Eve"]) by (right; left).
  assert (Hp2 : "Bob" ∈ ["Bob"; "Cara"; "Dan"]) by left.
  destruct (encode_keys_ready participants meetings e He _ Hm1)
    as (_&cands1&Hc1&_).
  destruct (encode_keys_ready participants meetings e He _ Hm2)
    as (_&cands2&Hc2&_).
  destruct (chosen_start_exists participants meetings e _ _ cands1
              He Hsat Hm1 Hc1) as [s1 Hch1].
  destruct (chosen_start_exists participants meetings e _ _ cands2
              He Hsat Hm2 Hc2) as [s2 Hch2].
  exists e, cands1, cands2, s1, s2.
  split; [exact well_formed_example|]. split; [exact NoDup_example|].
  split; [exact He|]. split; [exact Hsat|]. split; [exact Hm1|].
  split; [exact Hm2|]. split; [exact Hne|]. split; [exact Hp1|].
  split; [exact Hp2|]. split; [exact Hc1|]. split; [exact Hc2|].
  split; [exact Hch1|]. split; [exact Hch2|].
  exact (chosen_starts_do_not_clash participants meetings e _ _ _
           cands1 cands2 s1 s2 "Bob" 26
           well_formed_example NoDup_example He Hsat Hm1 Hm2 Hne Hp1 Hp2
           Hc1 Hc2 Hch1 Hch2).
Defined.

(** ** From a schedule to a satisfying assignment *)

Lemma schedule_assignment_true sv ms sel v :
  schedule_assignment sv ms sel v = true <->
  exists m, m ∈ ms /\ sv !! (m_mid m, sel (m_mid m)) = Some v.
Proof.
  unfold schedule_assignment.
  rewrite bool_decide_eq_true, list_elem_of_omap. done.
Qed.

Lemma sum_vars_zero value vars :
  (forall v, v ∈ vars -> value v = false) -> sum_vars value vars = 0.
Proof.
  induction vars as [|w vars IH]; intros H; simpl; [done|].
  rewrite (H w) by left. rewrite IH; [done|].
  intros v Hv. apply H. by right.
Qed.

Lemma sum_vars_le_one value vars :
  NoDup vars ->
  (forall v1 v2, v1 ∈ vars -> v2 ∈ vars ->
                 value v1 = true -> value v2 = true -> v1 = v2) ->
  sum_vars value vars <= 1.
Proof.
  induction vars as [|w vars IH]; intros Hnd Hu; simpl; [lia|].
  apply NoDup_cons in Hnd as [Hw Hnd].
  destruct (value w) eqn:Hvw; simpl.
  - rewrite sum_vars_zero; [lia|]. intros v Hv.
    destruct (value v) eqn:Hvv; [|done]. exfalso. apply Hw.
    rewrite <- (Hu v w); [done|by right|left|done..].
  - apply IH; [done|]. intros v1 v2 H1 H2. apply Hu; by right.
Qed.

Lemma mapM_NoDup {A B} (f : A -> option B) (l : list A) (k : list B) :
  mapM f l = Some k -> NoDup l ->
  (forall x y z, f x = Some z -> f y = Some z -> x = y) -> NoDup k.
Proof.
  intros H%mapM_Some_1 Hnd Hinj. induction H as [|x y l k Hxy HF IH].
  - constructor.
  - apply NoDup_cons in Hnd as [Hx Hnd]. apply NoDup_cons.
    split; [|by apply IH].
    intros (i&Hi)%list_elem_of_lookup.
    destruct (Forall2_lookup_r _ _ _ _ _ HF Hi) as (x'&Hx'&Hf).
    assert (x = x') as -> by (by apply (Hinj x x' y)).
    apply Hx, list_elem_of_lookup. by exists i.
Qed.

Lemma occupying_lists_NoDup tb sv p t ms : forall ls,
  (forall k1 k2 v, sv !! k1 = Some v -> sv !! k2 = Some v -> k1 = k2) ->
  (forall mid cands,
     meeting_candidates tb !! mid = Some cands -> NoDup cands) ->
  NoDup (m_mid <$> ms) ->
  mapM (occupying_of_meeting tb sv p t) ms = Some ls -> NoDup (concat ls).
Proof.
  intros ls Hinj Hc Hnd H%mapM_Some_1.
  induction H as [|m l ms ls Hl HF IH]; simpl; [constructor|].
  rewrite fmap_cons in Hnd. apply NoDup_cons in Hnd as [Hm Hnd].
  apply NoDup_app. split; [|split; [|by apply IH]].
  - unfold occupying_of_meeting in Hl.
    case_bool_decide; [|injection Hl as <-; constructor].
    destruct (meeting_duration_slots tb !! m_mid m) as [dur|];
      simpl in Hl; [|done].
    destruct (meeting_candidates tb !! m_mid m) as [cands|] eqn:Hmc;
      simpl in Hl; [|done].
    apply (mapM_NoDup _ _ _ Hl).
    + apply NoDup_filter. by apply (Hc (m_mid m)).
    + intros x y z Hx Hy. pose proof (Hinj _ _ _ Hx Hy). congruence.
  - intros v Hv Hv'.
    apply (occupying_of_meeting_elem _ _ _ _ _ _ Hl) in Hv
      as (_&_&_&s&_&_&_&_&Hs).
    apply elem_of_concat in Hv' as (l'&(i&Hi)%list_elem_of_lookup&Hv').
    destruct (Forall2_lookup_r _ _ _ _ _ HF Hi) as (m'&Hm'&Hl').
    destruct (proj1 (occupying_of_meeting_elem _ _ _ _ _ _ Hl' v) Hv')
      as (_&_&_&s'&_&_&_&_&Hs').
    pose proof (Hinj _ _ _ Hs Hs') as Hk. injection Hk as Hmid _.
    apply Hm. rewrite Hmid. apply list_elem_of_fmap. exists m'.
    split; [done|]. apply list_elem_of_lookup. by exists i.
Qed.

Lemma encode_candidates_NoDup ps ms e mid cands :
  encode ps ms = Some e ->
  meeting_candidates (tables e) !! mid = Some cands -> NoDup cands.
Proof.
  intros He Hmc.
  destruct (encode_table_entry ps ms e He mid cands Hmc) as (m&_&_&Hc&_).
  by destruct (candidates_of_sorted _ m cands Hc).
Qed.

Lemma occupying_NoDup ps ms e p t occ :
  encode ps ms = Some e -> NoDup (m_mid <$> ms) ->
  occupying (tables e) (start_vars e) ms p t = Some occ -> NoDup occ.
Proof.
  intros He Hnd (ls&Hls&->)%fmap_Some.
  apply (occupying_lists_NoDup (tables e) (start_vars e) p t ms ls);
    [|intros mid cands; by apply (encode_candidates_NoDup ps ms e)|done..].
  apply (proj2 (encode_vars_ok ps ms e He)).
Qed.

Section Schedule.
Variables (ps : list participant) (ms : list meeting) (e : encoding).
Variable sel : string -> Z.
Hypothesis Hwf : well_formed ps ms.
Hypothesis Hnd : NoDup (m_mid <$> ms).
Hypothesis Henc : encode ps ms = Some e.
Hypothesis Hsel : forall m, m ∈ ms ->
  exists cands,
    meeting_candidates (tables e) !! m_mid m = Some cands /\
    sel (m_mid m) ∈ cands.
Hypothesis Hfree : forall m1 m2 p t,
  m1 ∈ ms -> m2 ∈ ms -> m1 <> m2 ->
  p ∈ m_required m1 -> p ∈ m_required m2 ->
  ~ (sel (m_mid m1) <= t < sel (m_mid m1) + duration_slots (m_dur_min m1) /\
     sel (m_mid m2) <= t < sel (m_mid m2) + duration_slots (m_dur_min m2)).

Local Abbreviation asg := (schedule_assignment (start_vars e) ms sel).

(** A true variable with key [(mid, s)] is the variable of the start that
    [sel] gives for [mid]. *)
Lemma schedule_assignment_key mid s v :
  start_vars e !! (mid, s) = Some v -> asg v = true -> s = sel mid.
Proof.
  intros Hv (m&Hm&Hv')%schedule_assignment_true.
  pose proof (proj2 (encode_vars_ok ps ms e Henc) _ _ _ Hv Hv') as Hk.
  injection Hk as -> ->. done.
Qed.

Lemma schedule_assignment_sat : model_sat asg (model e).
Proof.
  destruct (encode_Some_inv ps ms e Henc) as (_&_&Htb&_&Hc1&Hc2&_&Hcs).
  unfold model_sat. rewrite Hcs. apply Forall_app. split.
  - apply Forall_forall. intros c Hc.
    apply (mapM_Some_elem _ _ _ Hc1) in Hc as (m&Hm&Hcm).
    destruct (Hsel m Hm) as (cands&Hmc&Hs).
    unfold exactly_one_constraint in Hcm. rewrite Hmc in Hcm. simpl in Hcm.
    destruct (mapM _ cands) as [vars|] eqn:Hvars; simpl in Hcm; [|done].
    assert (exists v, v ∈ vars /\
              start_vars e !! (m_mid m, sel (m_mid m)) = Some v)
      as (v&Hv&Hsv).
    { apply mapM_Some_1 in Hvars.
      apply list_elem_of_lookup in Hs as (i&Hi).
      destruct (Forall2_lookup_l _ _ _ _ _ Hvars Hi) as (v&Hvi&Hsv).
      exists v. split; [|done]. apply list_elem_of_lookup. by exists i. }
    assert (c = SumEq vars 1) as ->.
    { destruct vars; [by apply elem_of_nil in Hv|]. by injection Hcm. }
    simpl. apply Z.eqb_eq.
    assert (Htrue : asg v = true).
    { apply schedule_assignment_true. by exists m. }
    pose proof (sum_vars_one asg vars v Hv Htrue).
    assert (sum_vars asg vars <= 1); [|lia].
    apply sum_vars_le_one.
    + apply (mapM_NoDup _ _ _ Hvars).
      * by apply (encode_candidates_NoDup ps ms e (m_mid m) cands Henc).
      * intros x y z Hx Hy.
        pose proof (proj2 (encode_vars_ok ps ms e Henc) _ _ _ Hx Hy).
        congruence.
    + intros v1 v2 (x1&_&Hx1)%(mapM_Some_elem _ _ _ Hvars)
        (x2&_&Hx2)%(mapM_Some_elem _ _ _ Hvars) Ht1 Ht2.
      pose proof (schedule_assignment_key _ _ _ Hx1 Ht1).
      pose proof (schedule_assignment_key _ _ _ Hx2 Ht2).
      congruence.
  - apply Forall_forall. intros c Hc.
    apply (double_booking_elem _ _ ps ms _ Hc2) in Hc
      as (p&t&occ&_&_&Hocc&_&->).
    simpl. apply Z.leb_le. apply sum_vars_le_one.
    + by apply (occupying_NoDup ps ms e p t).
    + intros v1 v2 Hv1 Hv2 Ht1 Ht2.
      apply (occupying_elem _ _ ms p t occ Hocc) in Hv1
        as (m1&dur1&?&s1&Hm1&Hp1&Hd1&_&_&Hin1&Hsv1).
      apply (occupying_elem _ _ ms p t occ Hocc) in Hv2
        as (m2&dur2&?&s2&Hm2&Hp2&Hd2&_&_&Hin2&Hsv2).
      pose proof (schedule_assignment_key _ _ _ Hsv1 Ht1) as ->.
      pose proof (schedule_assignment_key _ _ _ Hsv2 Ht2) as ->.
      destruct (build_candidates_NoDup _ ms _ _ m1 Htb Hnd Hm1)
        as (?&_&_&Hd1').
      destruct (build_candidates_NoDup _ ms _ _ m2 Htb Hnd Hm2)
        as (?&_&_&Hd2').
      rewrite Hd1 in Hd1'. injection Hd1' as ->.
      rewrite Hd2 in Hd2'. injection Hd2' as ->.
      destruct (decide (m_mid m1 = m_mid m2)) as [Heq|Hne].
      * assert (m1 = m2) as ->
          by (by apply (NoDup_fmap_elem_eq m_mid ms)).
        congruence.
      * assert (m1 <> m2) as Hne' by congruence.
        by destruct (Hfree m1 m2 p t Hm1 Hm2 Hne' Hp1 Hp2).
Qed.

Lemma schedule_read_back m cands :
  m ∈ ms -> meeting_candidates (tables e) !! m_mid m = Some cands ->
  find_chosen asg (start_vars e) (m_mid m) cands = Some (Some (sel (m_mid m))).
Proof.
  intros Hm Hmc.
  destruct (chosen_start_exists ps ms e asg m cands Henc
              schedule_assignment_sat Hm Hmc) as [s Hch].
  destruct (find_chosen_Some _ _ _ _ _ Hch) as (_&v&Hv&Htrue).
  by rewrite <- (schedule_assignment_key _ _ _ Hv Htrue).
Qed.
End Schedule.

(** X21. With unique meeting ids, a choice of one candidate start per
    meeting under which no participant is required by two meetings on the
    same slot gives an assignment that satisfies every constraint of the
    model, and the decoder reads exactly these starts back from it: the
    model excludes no conflict-free schedule. *)
Theorem conflict_free_schedule_round_trip (ps : list participant)
    (ms : list meeting) (e : encoding) (sel : string -> Z) :
  well_formed ps ms -> NoDup (m_mid <$> ms) -> encode ps ms = Some e ->
  (forall m, m ∈ ms ->
     exists cands,
       meeting_candidates (tables e) !! m_mid m = Some cands /\
       sel (m_mid m) ∈ cands) ->
  (forall m1 m2 p t,
     m1 ∈ ms -> m2 ∈ ms -> m1 <> m2 ->
     p ∈ m_required m1 -> p ∈ m_required m2 ->
     ~ (sel (m_mid m1) <= t
          < sel (m_mid m1) + duration_slots (m_dur_min m1) /\
        sel (m_mid m2) <= t
          < sel (m_mid m2) + duration_slots (m_dur_min m2))) ->
  model_sat (schedule_assignment (start_vars e) ms sel) (model e) /\
  forall m cands,
    m ∈ ms -> meeting_candidates (tables e) !! m_mid m = Some cands ->
    find_chosen (schedule_assignment (start_vars e) ms sel) (start_vars e)
      (m_mid m) cands
    = Some (Some (sel (m_mid m))).
Proof.
  intros Hwf Hnd He Hsel Hfree. split.
  - by apply (schedule_assignment_sat ps ms e sel).
  - intros m cands. by apply (schedule_read_back ps ms e sel).
Qed.

Lemma example_schedule_candidates e :
  encode participants meetings = Some e ->
  forall m, m ∈ meetings ->
    exists cands,
      meeting_candidates (tables e) !! m_mid m = Some cands /\
      example_schedule (m_mid m) ∈ cands.
Proof.
  intros He.
  assert (H : (e' ← encode participants meetings;
               Some (forallb
                       (fun m =>
                          match meeting_candidates (tables e') !! m_mid m with
                          | Some cands =>
                              bool_decide (example_schedule (m_mid m) ∈ cands)
                          | None => false
                          end) meetings)) = Some true)
    by (vm_compute; reflexivity).
  rewrite He in H. injection H as H.
  intros m Hm%list_elem_of_In.
  pose proof (proj1 (forallb_forall
                       (fun m =>
                          match meeting_candidates (tables e) !! m_mid m with
                          | Some cands =>
                              bool_decide (example_schedule (m_mid m) ∈ cands)
                          | None => false
                          end) meetings) H m Hm) as Hb.
  simpl in Hb.
  destruct (meeting_candidates (tables e) !! m_mid m) as [cands|]; [|done].
  exists cands. split; [done|]. by apply bool_decide_eq_true in Hb.
Qed.

Lemma example_schedule_free m1 m2 (p : string) t :
  m1 ∈ meetings -> m2 ∈ meetings -> m1 <> m2 ->
  p ∈ m_required m1 -> p ∈ m_required m2 ->
  ~ (example_schedule (m_mid m1) <= t
       < example_schedule (m_mid m1) + duration_slots (m_dur_min m1) /\
     example_schedule (m_mid m2) <= t
       < example_schedule (m_mid m2) + duration_slots (m_dur_min m2)).
Proof.
  assert (E1 : example_schedule "Mktg.Sync" = 22) by (vm_compute; reflexivity).
  assert (E2 : example_schedule "Eng.AllHands" = 26)
    by (vm_compute; reflexivity).
  assert (E3 : example_schedule "Prod.Planning" = 24)
    by (vm_compute; reflexivity).
  assert (D60 : duration_slots 60 = 2) by (vm_compute; reflexivity).
  assert (D30 : duration_slots 30 = 1) by (vm_compute; reflexivity).
  unfold meetings. intros Hm1 Hm2 Hne _ _.
  repeat (apply elem_of_cons in Hm1 as [->|Hm1]);
    [| | |by apply elem_of_nil in Hm1];
    (repeat (apply elem_of_cons in Hm2 as [->|Hm2]);
       [| | |by apply elem_of_nil in Hm2]);
    try done; cbn [m_mid m_dur_min];
    rewrite ?E1, ?E2, ?E3, ?D60, ?D30; lia.
Qed.

Lemma conflict_free_schedule_round_trip_witness :
  exists e,
    well_formed participants meetings /\ NoDup (m_mid <$> meetings) /\
    encode participants meetings = Some e /\
    model_sat (schedule_assignment (start_vars e) meetings example_schedule)
      (model e) /\
    forall m cands,
      m ∈ meetings -> meeting_candidates (tables e) !! m_mid m = Some cands ->
      find_chosen (schedule_assignment (start_vars e) meetings
                     example_schedule) (start_vars e) (m_mid m) cands
      = Some (Some (example_schedule (m_mid m))).
Proof.
  destruct (encode_is_Some participants meetings well_formed_example)
    as [e He].
  exists e. split; [exact well_formed_example|]. split; [exact NoDup_example|].
  split; [exact He|].
  exact (conflict_free_schedule_round_trip participants meetings e
           example_schedule well_formed_example NoDup_example He
           (example_schedule_candidates e He) example_schedule_free).
Defined.

(** ** Two rows of the meeting table with one id *)

Lemma sum_vars_app value l1 l2 :
  sum_vars value (l1 ++ l2) = sum_vars value l1 + sum_vars value l2.
Proof. induction l1 as [|w l1 IH]; simpl; [done|]. rewrite IH. lia. Qed.

Lemma sum_vars_concat_one value (ls : list (list nat)) i l v :
  ls !! i = Some l -> v ∈ l -> value v = true ->
  1 <= sum_vars value (concat ls).
Proof.
  intros Hi Hv Htrue. apply (sum_vars_one value _ v); [|done].
  apply elem_of_concat. exists l. split; [|done].
  apply list_elem_of_lookup. by exists i.
Qed.

Lemma sum_vars_concat_two value (ls : list (list nat)) : forall i j l1 l2 v,
  (i < j)%nat -> ls !! i = Some l1 -> ls !! j = Some l2 ->
  v ∈ l1 -> v ∈ l2 -> value v = true ->
  2 <= sum_vars value (concat ls).
Proof.
  induction ls as [|l ls IH]; intros i j l1 l2 v Hij Hi Hj Hv1 Hv2 Htrue;
    [done|].
  destruct j as [|j]; [lia|]. simpl in Hj. simpl. rewrite sum_vars_app.
  destruct i as [|i]; simpl in Hi.
  - injection Hi as ->.
    pose proof (sum_vars_one value l1 v Hv1 Htrue).
    pose proof (sum_vars_concat_one value ls j l2 v Hj Hv2 Htrue). lia.
  - pose proof (sum_vars_nonneg value l).
    pose proof (IH i j l1 l2 v ltac:(lia) Hi Hj Hv1 Hv2 Htrue). lia.
Qed.

Lemma duration_slots_pos dur_min : 0 < dur_min -> 1 <= duration_slots dur_min.
Proof.
  intros H. unfold duration_slots.
  pose proof (ceil_div_spec dur_min SLOT_MIN ltac:(done)).
  unfold SLOT_MIN in *. lia.
Qed.

(** X22. When two rows of the meeting table carry the same id and require
    a common participant, and every meeting has a positive duration, the
    model has no satisfying assignment: the rows share their variables,
    each of which then counts twice in that participant's [<= 1] sums. *)
Theorem duplicate_id_infeasible (ps : list participant) (ms : list meeting)
    (e : encoding) (i j : nat) (m1 m2 : meeting) (p : string) :
  well_formed ps ms -> encode ps ms = Some e ->
  (forall m, m ∈ ms -> 0 < m_dur_min m) ->
  (i < j)%nat -> ms !! i = Some m1 -> ms !! j = Some m2 ->
  m_mid m1 = m_mid m2 -> p ∈ m_required m1 -> p ∈ m_required m2 ->
  infeasible (model e).
Proof.
  intros Hwf He Hpos Hij Hi Hj Hmid Hp1 Hp2 value Hsat.
  assert (Hm1 : m1 ∈ ms) by (apply list_elem_of_lookup; by exists i).
  destruct (encode_Some_inv ps ms e He) as (_&_&_&_&_&Hc2&_&Hcs).
  pose proof (encode_keys_ready ps ms e He) as Hk.
  destruct (Hk m1 Hm1) as (_&cands&Hmc&_).
  destruct (meeting_unique_start ps ms e value m1 cands He Hsat Hm1 Hmc)
    as (s&v&Hs&Hv&Htrue&_).
  destruct (encode_table_entry ps ms e He _ _ Hmc) as (m'&Hm'&_&_&Hd).
  pose proof (duration_slots_pos _ (Hpos m' Hm')) as Hdur.
  pose proof (encode_candidate_bounds ps ms e He _ _ _ _ Hmc Hd Hs) as Hb.
  destruct (occupying_is_Some _ _ ms p s Hk) as [occ Hocc].
  pose proof Hocc as (ls&Hls&->)%fmap_Some.
  apply mapM_Some_1 in Hls.
  destruct (Forall2_lookup_l _ _ _ _ _ Hls Hi) as (l1&Hl1&Ho1).
  destruct (Forall2_lookup_l _ _ _ _ _ Hls Hj) as (l2&Hl2&Ho2).
  assert (Hv1 : v ∈ l1).
  { apply (occupying_of_meeting_elem _ _ _ _ _ _ Ho1). split; [done|].
    exists (duration_slots (m_dur_min m')), cands, s.
    repeat split; [done..|lia|lia|done]. }
  assert (Hv2 : v ∈ l2).
  { apply (occupying_of_meeting_elem _ _ _ _ _ _ Ho2). split; [done|].
    exists (duration_slots (m_dur_min m')), cands, s. rewrite <- Hmid.
    repeat split; [done..|lia|lia|done]. }
  pose proof (sum_vars_concat_two value ls i j l1 l2 v Hij Hl1 Hl2
                Hv1 Hv2 Htrue) as Hsum.
  assert (SumLe (concat ls) 1 ∈ constraints (model e)) as Hc.
  { rewrite Hcs, elem_of_app. right.
    apply (double_booking_elem _ _ ps ms _ Hc2). exists p, s, (concat ls).
    split; [by apply (Hwf m1)|]. rewrite HORIZON_SLOTS_eq in *.
    split; [lia|]. split; [done|]. split; [|done].
    intros Hnil. rewrite Hnil in Hsum. simpl in Hsum. lia. }
  unfold model_sat in Hsat.
  eapply Forall_forall in Hsat; [|exact Hc]. simpl in Hsat.
  apply Z.leb_le in Hsat. lia.
Qed.

Lemma duplicate_id_infeasible_witness :
  exists e,
    well_formed far_east [short_call; short_call] /\
    encode far_east [short_call; short_call] = Some e /\
    (forall m, m ∈ [short_call; short_call] -> 0 < m_dur_min m) /\
    (0 < 1)%nat /\
    [short_call; short_call] !! 0%nat = Some short_call /\
    [short_call; short_call] !! 1%nat = Some short_call /\
    m_mid short_call = m_mid short_call /\
    "Zed" ∈ m_required short_call /\
    infeasible (model e).
Proof.
  assert (Hwf : well_formed far_east [short_call; short_call]).
  { apply well_formed_Forall. by apply (bool_decide_unpack _). }
  assert (Hpos : forall m, m ∈ [short_call; short_call] -> 0 < m_dur_min m).
  { intros m Hm.
    repeat (apply elem_of_cons in Hm as [->|Hm]);
      [unfold short_call; simpl; lia..|].
    by apply elem_of_nil in Hm. }
  assert (Hp : "Zed" ∈ m_required short_call) by left.
  destruct (encode_is_Some far_east [short_call; short_call] Hwf) as [e He].
  exists e. split; [exact Hwf|]. split; [exact He|]. split; [exact Hpos|].
  split; [lia|]. split; [reflexivity|]. split; [reflexivity|].
  split; [reflexivity|]. split; [exact Hp|].
  exact (duplicate_id_infeasible far_east [short_call; short_call] e
           0 1 short_call short_call "Zed" Hwf He Hpos ltac:(lia)
           eq_refl eq_refl eq_refl Hp Hp).
Defined.
